(** * Flappy Bird (src/App.js): the simulation core of the [App] component

    The React component keeps its session in four [useState] cells
    ([running], [gameOver], [score], [best]), one [useState] array ([pipes])
    and three refs ([birdY], [birdV], [loopRef]).  This development embeds
    the three callbacks that change them, [startIfNeeded], [resetGame] and
    the [setInterval] callback of the game-loop effect, as functions on a
    record of those cells.

    Conventions.
    - JavaScript numbers are idealised as exact rationals ([Q]); numeric
      results are compared with [==], untouched cells with [=].
    - [SCREEN_WIDTH] and [SCREEN_HEIGHT] come from [Dimensions.get("window")]
      and are parameters of the whole model.
    - [Math.random] is an ambient source: it is modelled by a sequence
      [rand : nat -> Q] of draws and a cursor counting the calls made so
      far; the cursor is threaded through every function that draws.
    - State updates queued by a callback are applied in program order. *)

From Stdlib Require Import QArith Qround ZArith List Bool Lqa Lia.
Import ListNotations.
Open Scope Q_scope.

(** ** Comparisons on numbers, as booleans *)

Definition Qltb (a b : Q) : bool := negb (Qle_bool b a).
Definition Qgtb (a b : Q) : bool := Qltb b a.

(** ** A small monad for code that calls [Math.random] *)

Module Rnd.

(** A computation receives the draw sequence and the number of draws
    already consumed, and returns its value with the new count. *)
Definition t (A : Type) : Type := (nat -> Q) -> nat -> A * nat.

Definition ret {A} (a : A) : t A := fun _ k => (a, k).

Definition bind {A B} (m : t A) (f : A -> t B) : t B :=
  fun rand k => let (a, k1) := m rand k in f a rand k1.

(** [Math.random()] *)
Definition random : t Q := fun rand k => (rand k, S k).

End Rnd.

Notation "x <- m ;; f" := (Rnd.bind m (fun x => f))
  (at level 61, m at next level, right associativity).

(** ** Data *)

(** A pipe pair, [{ x, topHeight, scored }]. *)
Record pipe : Type := mkPipe {
  x : Q;
  topHeight : Q;
  scored : bool
}.

(** A collision rectangle, [{ x1, y1, x2, y2 }]. *)
Record rect : Type := mkRect {
  x1 : Q;
  y1 : Q;
  x2 : Q;
  y2 : Q
}.

(** What the interval callback created by the game-loop effect closes over.
    The effect has the dependency list [[running]], so the callback keeps the
    [triggerGameOver] of the render in which [running] became true, and that
    [triggerGameOver] ([useCallback(..., [score])]) keeps that render's
    [score].  Setters and refs are stable, so this is the only
    render-dependent value of the closure. *)
Record interval : Type := mkInterval {
  closure_score : Z
}.

(** The cells of the component, and the cursor of [Math.random]. *)
Record state : Type := mkState {
  running : bool;
  gameOver : bool;
  score : Z;
  best : Z;
  birdY : Q;
  birdV : Q;
  pipes : list pipe;
  loopRef : option interval;
  draws : nat
}.

(** ** Constants (lines 7-14) *)

Definition BIRD_SIZE : Q := 40.
Definition GRAVITY : Q := 0.6.
Definition JUMP_VELOCITY : Q := -10.5.
Definition PIPE_WIDTH : Q := 70.
Definition PIPE_GAP : Q := 170.
Definition PIPE_SPEED : Q := 3.2.

Section Game.

Variables SCREEN_WIDTH SCREEN_HEIGHT : Q.

Definition BIRD_X : Q := SCREEN_WIDTH * 0.25.

(** *** [randomTopHeight] (lines 16-20) *)

Definition minTop : Q := 60.
Definition maxTop : Q := SCREEN_HEIGHT - 200.

Definition randomTopHeight : Rnd.t Q :=
  r <- Rnd.random ;;
  Rnd.ret (inject_Z (Qfloor (r * (maxTop - minTop))) + minTop).

(** *** The initial pipes (lines 32-39 and 49-56) *)

Definition initialPipes : Rnd.t (list pipe) :=
  let startX1 := SCREEN_WIDTH + 100 in
  let startX2 := startX1 + SCREEN_WIDTH * 0.6 in
  h1 <- randomTopHeight ;;
  h2 <- randomTopHeight ;;
  Rnd.ret [ mkPipe startX1 h1 false; mkPipe startX2 h2 false ].

(** *** The state at mount (lines 23-41) *)

Definition mount (rand : nat -> Q) : state :=
  let (ps, k) := initialPipes rand 0%nat in
  {| running := false; gameOver := false; score := 0; best := 0;
     birdY := SCREEN_HEIGHT * 0.45; birdV := 0;
     pipes := ps; loopRef := None; draws := k |}.

(** *** [resetGame] (lines 43-57) *)

Definition resetGame (rand : nat -> Q) (s : state) : state :=
  let (ps, k) := initialPipes rand (draws s) in
  {| running := false; gameOver := false; score := 0; best := best s;
     birdY := SCREEN_HEIGHT * 0.45; birdV := 0;
     pipes := ps; loopRef := loopRef s; draws := k |}.

(** *** [startIfNeeded] (lines 59-63)
    The guard protects [setRunning]; the write to [birdV] is outside it. *)

Definition startIfNeeded (s : state) : state :=
  {| running := if negb (running s) && negb (gameOver s) then true
                else running s;
     gameOver := gameOver s; score := score s; best := best s;
     birdY := birdY s; birdV := JUMP_VELOCITY;
     pipes := pipes s; loopRef := loopRef s; draws := draws s |}.

(** *** [triggerGameOver] (lines 155-163)
    [sc] is the [score] the function closed over. *)

Definition triggerGameOver (sc : Z) (s : state) : state :=
  {| running := false; gameOver := true; score := score s;
     best := if (sc >? best s)%Z then sc else best s;
     birdY := birdY s; birdV := birdV s;
     pipes := pipes s; loopRef := None; draws := draws s |}.

(** *** Moving and recycling the pipes (lines 89-100) *)

Definition movePipe (p : pipe) : pipe :=
  mkPipe (x p - PIPE_SPEED) (topHeight p) (scored p).

Definition recyclePipe (p : pipe) : Rnd.t pipe :=
  if Qltb (x p + PIPE_WIDTH) 0 then
    r <- Rnd.random ;;
    h <- randomTopHeight ;;
    Rnd.ret (mkPipe (SCREEN_WIDTH + r * 120 + 60) h false)
  else Rnd.ret p.

(** The [for (let p of updated)] loop. *)
Fixpoint recycle (updated : list pipe) : Rnd.t (list pipe) :=
  match updated with
  | [] => Rnd.ret []
  | p :: rest =>
      p' <- recyclePipe p ;;
      rest' <- recycle rest ;;
      Rnd.ret (p' :: rest')
  end.

Definition advance (prev : list pipe) : Rnd.t (list pipe) :=
  recycle (map movePipe prev).

(** *** Collisions and scoring (lines 103-145) *)

Definition birdRect (y : Q) : rect :=
  mkRect BIRD_X y (BIRD_X + BIRD_SIZE) (y + BIRD_SIZE).

Definition topPipe (p : pipe) : rect :=
  mkRect (x p) 0 (x p + PIPE_WIDTH) (topHeight p).

Definition bottomPipe (p : pipe) : rect :=
  mkRect (x p) (topHeight p + PIPE_GAP) (x p + PIPE_WIDTH) SCREEN_HEIGHT.

Definition intersects (r s : rect) : bool :=
  negb (Qltb (x2 r) (x1 s) || Qgtb (x1 r) (x2 s)
        || Qltb (y2 r) (y1 s) || Qgtb (y1 r) (y2 s)).

Definition birdCenterX : Q := BIRD_X + BIRD_SIZE / 2.

(** The two tests made on one pipe by the [map] callback. *)
Definition hits (y : Q) (p : pipe) : bool :=
  intersects (birdRect y) (topPipe p)
  || intersects (birdRect y) (bottomPipe p).

Definition passes (p : pipe) : bool :=
  negb (scored p) && Qgtb birdCenterX (x p + PIPE_WIDTH).

(** The result of the pass: the new array and the two accumulators the
    callback updates, [collided] and [gained]. *)
Record passResult : Type := mkPass {
  newArr : list pipe;
  collided : bool;
  gained : Z
}.

Fixpoint scorePass (y : Q) (prev : list pipe) (c : bool) (g : Z)
  : passResult :=
  match prev with
  | [] => mkPass [] c g
  | p :: rest =>
      let c1 := if hits y p then true else c in
      if passes p then
        let r := scorePass y rest c1 (g + 1)%Z in
        mkPass (mkPipe (x p) (topHeight p) true :: newArr r)
               (collided r) (gained r)
      else
        let r := scorePass y rest c1 g in
        mkPass (p :: newArr r) (collided r) (gained r)
  end.

(** *** The interval callback (lines 75-146) *)

Definition tickBody (rand : nat -> Q) (sc : Z) (s : state) : state :=
  let v := birdV s + GRAVITY in
  let y := birdY s + v in
  let y := if Qltb y 0 then 0 else y in
  if Qgtb (y + BIRD_SIZE) SCREEN_HEIGHT then
    triggerGameOver sc
      {| running := running s; gameOver := gameOver s; score := score s;
         best := best s; birdY := SCREEN_HEIGHT - BIRD_SIZE; birdV := v;
         pipes := pipes s; loopRef := loopRef s; draws := draws s |}
  else
    let (moved, k) := advance (pipes s) rand (draws s) in
    let r := scorePass y moved false 0 in
    let s1 :=
      {| running := running s; gameOver := gameOver s;
         score := if (gained r >? 0)%Z then (score s + gained r)%Z
                  else score s;
         best := best s; birdY := y; birdV := v;
         pipes := newArr r; loopRef := loopRef s; draws := k |} in
    if collided r then triggerGameOver sc s1 else s1.

(** The callback fires only while an interval is installed. *)
Definition tick (rand : nat -> Q) (s : state) : state :=
  match loopRef s with
  | Some i => tickBody rand (closure_score i) s
  | None => s
  end.

(** *** The game-loop effect (lines 66-153)
    It runs after a commit in which [running] changed.  Its cleanup and its
    [!running] branch clear the interval; otherwise it installs a new one,
    whose callback closes over the [score] of that render. *)

Definition gameLoopEffect (was_running : bool) (s : state) : state :=
  if Bool.eqb was_running (running s) then s
  else
    {| running := running s; gameOver := gameOver s; score := score s;
       best := best s; birdY := birdY s; birdV := birdV s;
       pipes := pipes s;
       loopRef := if running s then Some (mkInterval (score s)) else None;
       draws := draws s |}.

(** *** The component as a transition system *)

Inductive event : Type :=
| Press   (* [onPressIn] of the outer [Pressable] *)
| Retry   (* [onPress] of the "Reintentar" button *)
| Timer.  (* the interval fires *)

Definition handle (rand : nat -> Q) (e : event) (s : state) : state :=
  match e with
  | Press => startIfNeeded s
  | Retry => resetGame rand s
  | Timer => tick rand s
  end.

Definition dispatch (rand : nat -> Q) (e : event) (s : state) : state :=
  gameLoopEffect (running s) (handle rand e s).

Fixpoint run (rand : nat -> Q) (es : list event) (s : state) : state :=
  match es with
  | [] => s
  | e :: rest => run rand rest (dispatch rand e s)
  end.

(** States the component can be in after mounting. *)
Inductive reachable (rand : nat -> Q) : state -> Prop :=
| reach_mount : reachable rand (mount rand)
| reach_step : forall s e,
    reachable rand s -> reachable rand (dispatch rand e s).

End Game.

(** ** Observations used to state the properties *)

Section Observations.

Variables SCREEN_WIDTH SCREEN_HEIGHT : Q.

(** The position reached by the integration step of a tick, before the
    two bound checks. *)
Definition integrated (s : state) : Q := birdY s + (birdV s + GRAVITY).

(** The position after the ceiling check of line 81. *)
Definition ceiled (s : state) : Q :=
  if Qltb (integrated s) 0 then 0 else integrated s.

(** What the scoring branch of the [map] callback returns for a pipe. *)
Definition markScored (p : pipe) : pipe :=
  if passes SCREEN_WIDTH p then mkPipe (x p) (topHeight p) true else p.

(** Slot [i] of the pipe array holds a pipe whose flag is set. *)
Definition slotScored (i : nat) (s : state) : bool :=
  match nth_error (pipes s) i with
  | Some p => scored p
  | None => false
  end.

(** The interval is installed and the tick passes the floor check, so the
    two [setPipes] passes run. *)
Definition reachesPipes (s : state) : bool :=
  match loopRef s with
  | Some _ =>
      negb (Qgtb (ceiled s + BIRD_SIZE) SCREEN_HEIGHT)
  | None => false
  end.

(** In the tick taken from [s], slot [i] is recycled. *)
Definition recycledIn (i : nat) (s : state) : bool :=
  reachesPipes s &&
  match nth_error (pipes s) i with
  | Some p => Qltb (x (movePipe p) + PIPE_WIDTH) 0
  | None => false
  end.

(** In the tick taken from [s], slot [i] awards a point. *)
Definition scoresIn (rand : nat -> Q) (i : nat) (s : state) : bool :=
  reachesPipes s &&
  match nth_error
          (fst (advance SCREEN_WIDTH SCREEN_HEIGHT (pipes s) rand (draws s)))
          i with
  | Some p => passes SCREEN_WIDTH p
  | None => false
  end.

(** Along a list of events: is slot [i] ever given a fresh pipe (by a
    recycle or by [resetGame]), and how many points does it award. *)
Fixpoint renewedAlong (rand : nat -> Q) (i : nat) (es : list event)
    (s : state) : bool :=
  match es with
  | [] => false
  | e :: rest =>
      match e with
      | Timer => recycledIn i s
      | Retry => true
      | Press => false
      end
      || renewedAlong rand i rest
           (dispatch SCREEN_WIDTH SCREEN_HEIGHT rand e s)
  end.

Fixpoint pointsAlong (rand : nat -> Q) (i : nat) (es : list event)
    (s : state) : nat :=
  match es with
  | [] => 0%nat
  | e :: rest =>
      ((match e with
        | Timer => if scoresIn rand i s then 1 else 0
        | _ => 0
        end)
       + pointsAlong rand i rest
           (dispatch SCREEN_WIDTH SCREEN_HEIGHT rand e s))%nat
  end.

(** The bounds stated for [topHeight]. *)
Definition inRange (p : pipe) : Prop :=
  minTop <= topHeight p /\ topHeight p <= maxTop SCREEN_HEIGHT.

(** What holds of the cells in every state the component reaches: the
    interval is installed exactly while [running]; a finished game is not
    running; an idle game has score 0; and the installed callback closed
    over the score 0. *)
Definition coherent (s : state) : Prop :=
  (running s = true <-> loopRef s <> None)
  /\ (gameOver s = true -> running s = false)
  /\ (running s = false -> gameOver s = false -> score s = 0%Z)
  /\ (forall i, loopRef s = Some i -> closure_score i = 0%Z).

(** The draws are in the range of [Math.random]. *)
Definition unitDraws (rand : nat -> Q) : Prop :=
  forall n, 0 <= rand n /\ rand n < 1.

End Observations.

(** ** Concrete sessions used as examples *)

Module Demo.

Definition W : Q := 400.
Definition H : Q := 800.

(** Every draw is 19/54, so every pipe gets [topHeight = 250] on a
    screen 800 high. *)
Definition rnd : nat -> Q := fun _ => 19 # 54.

Definition half : nat -> Q := fun _ => 1 # 2.

(** One press followed by 34 ticks: the bird comes back to the height it
    started from. *)
Definition flap : list event := Press :: repeat Timer 34.

Fixpoint flaps (n : nat) : list event :=
  match n with
  | O => []
  | S k => flap ++ flaps k
  end.

(** A session started by a press and left running after it. *)
Definition started : state := dispatch W H rnd Press (mount W H rnd).

(** The bird is left to fall: after 57 ticks it is one tick from the
    floor, and a few ticks later the game is over. *)
Definition falling : state := run W H rnd (repeat Timer 57) started.
Definition crashed : state := run W H rnd (repeat Timer 60) started.

(** A press before every tick takes the bird up to the ceiling. *)
Definition nearCeiling : state :=
  run W H rnd (concat (repeat [Press; Timer] 36) ++ [Press])
    (mount W H rnd).

(** Five flaps carry the bird through the first pipe; left alone, it
    then falls for 17 ticks and meets the second pipe on the next one. *)
Definition beforeCrash : state :=
  run W H rnd (flaps 5 ++ repeat Timer 17) (mount W H rnd).

(** The four cells shown on screen. *)
Definition report (s : state) : bool * bool * Z * Z :=
  (running s, gameOver s, score s, best s).

(** The last tick of that session: the cells before it and after it. *)
Definition lastTick : (bool * bool * Z * Z) * (bool * bool * Z * Z) :=
  let s := beforeCrash in
  (report s, report (dispatch W H rnd Timer s)).

(** A running session with score 7, the bird one tick above the floor; its
    interval closed over the score 0, as every installed interval does. *)
Definition seven : state :=
  {| running := true; gameOver := false; score := 7; best := 0;
     birdY := 750; birdV := 12;
     pipes := [mkPipe 300 250 true; mkPipe 540 250 false];
     loopRef := Some (mkInterval 0); draws := 16 |}.

(** A running session in which the first pipe's right edge is about to
    pass the bird's centre while the bird still overlaps its top block. *)
Definition grazing : state :=
  {| running := true; gameOver := false; score := 3; best := 0;
     birdY := 100; birdV := 0;
     pipes := [mkPipe 40 250 false; mkPipe 280 250 false];
     loopRef := Some (mkInterval 0); draws := 2 |}.

(** A window too low for [randomTopHeight]'s range, and a session
    mounted and started in it. *)
Definition lowH : Q := 200.
Definition lowMount : state := mount W lowH half.
Definition lowStarted : state := dispatch W lowH half Press lowMount.

(** Two rectangles that share one vertical edge. *)
Definition boxA : rect := mkRect 0 0 10 10.
Definition boxB : rect := mkRect 10 5 20 15.

End Demo.

(** ** What the component draws (lines 166-237) *)

(** The box of an absolutely positioned [View]: its [left], [top], [width]
    and [height] style entries. *)
Record view : Type := mkView {
  left : Q;
  top : Q;
  width : Q;
  height : Q
}.

Section Presentation.

Variables SCREEN_WIDTH SCREEN_HEIGHT : Q.

(** [renderPipe] (lines 166-194): the upper and the lower block of a pipe;
    the width comes from [styles.pipe]. *)
Definition renderPipe (p : pipe) : view * view :=
  let bottomY := topHeight p + PIPE_GAP in
  (mkView (x p) 0 PIPE_WIDTH (topHeight p),
   mkView (x p) bottomY PIPE_WIDTH (SCREEN_HEIGHT - bottomY)).

(** The bird (lines 201-209), sized by [styles.bird]. *)
Definition renderBird (s : state) : view :=
  mkView (BIRD_X SCREEN_WIDTH) (birdY s) BIRD_SIZE BIRD_SIZE.

(** The two overlays (lines 221-237). *)
Definition showStart (s : state) : bool :=
  negb (running s) && negb (gameOver s).

Definition showGameOver (s : state) : bool := gameOver s.

End Presentation.

(** The region of the screen a view covers, and equality of regions. *)
Definition viewRect (v : view) : rect :=
  mkRect (left v) (top v) (left v + width v) (top v + height v).

Definition sameRect (r s : rect) : Prop :=
  x1 r == x1 s /\ y1 r == y1 s /\ x2 r == x2 s /\ y2 r == y2 s.

Definition wellFormed (r : rect) : Prop := x1 r <= x2 r /\ y1 r <= y2 r.


(** The state [m] of a fresh mount, carrying over the best score of [s] and
    continuing its count of draws. *)
Definition carriedOver (s m : state) : state :=
  {| running := running m; gameOver := gameOver m; score := score m;
     best := best s; birdY := birdY m; birdV := birdV m;
     pipes := pipes m; loopRef := loopRef m;
     draws := (draws s + draws m)%nat |}.

(** Two states agree on every cell but the bird's velocity. *)
Definition sameButVelocity (s s' : state) : Prop :=
  running s' = running s /\ gameOver s' = gameOver s
  /\ score s' = score s /\ best s' = best s /\ birdY s' = birdY s
  /\ pipes s' = pipes s /\ loopRef s' = loopRef s /\ draws s' = draws s.


(** The moved pipes that the recycling loop will give a new position. *)
Definition leaving (ps : list pipe) : list pipe :=
  filter (fun p => Qltb (x p + PIPE_WIDTH) 0) ps.

(** * Properties *)

(** ** Booleans and propositions *)

Lemma Qltb_lt (a b : Q) : Qltb a b = true <-> a < b.
Proof.
  unfold Qltb. rewrite negb_true_iff.
  destruct (Qle_bool b a) eqn:E.
  - apply Qle_bool_iff in E. split; [discriminate | intro; lra].
  - split; [intros _ | reflexivity].
    apply Qnot_le_lt. intro L. apply Qle_bool_iff in L. congruence.
Qed.

Lemma Qltb_ge (a b : Q) : Qltb a b = false <-> b <= a.
Proof.
  pose proof (Qltb_lt a b) as L.
  destruct (Qltb a b).
  - split; [discriminate |].
    intro. assert (a < b) by (apply L; reflexivity). lra.
  - split; [intros _ | reflexivity].
    apply Qnot_lt_le. intro. assert (false = true) by (apply L; assumption).
    discriminate.
Qed.

Lemma Qgtb_lt (a b : Q) : Qgtb a b = true <-> b < a.
Proof. unfold Qgtb. apply Qltb_lt. Qed.

Lemma Qgtb_le (a b : Q) : Qgtb a b = false <-> a <= b.
Proof. unfold Qgtb. apply Qltb_ge. Qed.

(** ** C8: rectangle intersection *)

(** C8.  For rectangles with [x1 <= x2] and [y1 <= y2], [intersects r s]
    is true exactly when [r] is neither strictly left of, strictly right of,
    strictly above nor strictly below [s]; and two rectangles that share the
    edge [x2 r == x1 s], their vertical extents meeting, intersect. *)
Theorem intersects_inclusive (r s : rect)
    (Hrx : x1 r <= x2 r) (Hry : y1 r <= y2 r)
    (Hsx : x1 s <= x2 s) (Hsy : y1 s <= y2 s) :
  (intersects r s = true <->
     ~ (x2 r < x1 s \/ x2 s < x1 r \/ y2 r < y1 s \/ y2 s < y1 r))
  /\ (x2 r == x1 s -> y1 s <= y2 r -> y1 r <= y2 s -> intersects r s = true).
Proof.
  assert (E : intersects r s = true <->
     ~ (x2 r < x1 s \/ x2 s < x1 r \/ y2 r < y1 s \/ y2 s < y1 r)).
  { unfold intersects, Qgtb. rewrite negb_true_iff.
    rewrite !orb_false_iff, !Qltb_ge. split.
    - intros [[[A B] C] D] [K | [K | [K | K]]]; lra.
    - intro N. repeat split; apply Qnot_lt_le; intro K; apply N; tauto. }
  split; [exact E |].
  intros Hedge Hy1 Hy2. apply E. intros [K | [K | [K | K]]]; lra.
Qed.

Lemma intersects_inclusive_witness :
  (x1 Demo.boxA <= x2 Demo.boxA /\ y1 Demo.boxA <= y2 Demo.boxA
   /\ x1 Demo.boxB <= x2 Demo.boxB /\ y1 Demo.boxB <= y2 Demo.boxB)
  /\ x2 Demo.boxA == x1 Demo.boxB
  /\ intersects Demo.boxA Demo.boxB = true.
Proof.
  assert (Hrx : x1 Demo.boxA <= x2 Demo.boxA) by (simpl; lra).
  assert (Hry : y1 Demo.boxA <= y2 Demo.boxA) by (simpl; lra).
  assert (Hsx : x1 Demo.boxB <= x2 Demo.boxB) by (simpl; lra).
  assert (Hsy : y1 Demo.boxB <= y2 Demo.boxB) by (simpl; lra).
  split; [repeat split; assumption |].
  split; [simpl; lra |].
  apply (proj2 (intersects_inclusive _ _ Hrx Hry Hsx Hsy));
    simpl; lra.
Defined.

(** ** The scoring pass, as a map and two folds *)

Section PassFacts.

Variables W H : Q.

Lemma scorePass_newArr (y : Q) (ps : list pipe) (c : bool) (g : Z) :
  newArr (scorePass W H y ps c g) = map (markScored W) ps.
Proof.
  revert c g. induction ps as [| p rest IH]; intros c g; simpl.
  - reflexivity.
  - unfold markScored at 1. destruct (passes W p); simpl; rewrite IH;
      reflexivity.
Qed.

Lemma scorePass_collided (y : Q) (ps : list pipe) (c : bool) (g : Z) :
  collided (scorePass W H y ps c g) = c || existsb (hits W H y) ps.
Proof.
  revert c g. induction ps as [| p rest IH]; intros c g; simpl.
  - rewrite orb_false_r. reflexivity.
  - destruct (passes W p); simpl; rewrite IH;
      destruct (hits W H y p), c; reflexivity.
Qed.

Lemma scorePass_gained (y : Q) (ps : list pipe) (c : bool) (g : Z) :
  gained (scorePass W H y ps c g)
  = (g + Z.of_nat (length (filter (passes W) ps)))%Z.
Proof.
  revert c g. induction ps as [| p rest IH]; intros c g; simpl.
  - lia.
  - destruct (passes W p); simpl; rewrite IH; simpl length; lia.
Qed.

Lemma passes_iff (p : pipe) :
  passes W p = true <->
  scored p = false /\ x p + PIPE_WIDTH < birdCenterX W.
Proof.
  unfold passes. rewrite andb_true_iff, negb_true_iff, Qgtb_lt. tauto.
Qed.

End PassFacts.

(** ** The tick, branch by branch *)

Section TickFacts.

Variables W H : Q.
Variable rand : nat -> Q.

Lemma tickBody_floor (sc : Z) (s : state) :
  H < ceiled s + BIRD_SIZE ->
  tickBody W H rand sc s
  = triggerGameOver sc
      {| running := running s; gameOver := gameOver s; score := score s;
         best := best s; birdY := H - BIRD_SIZE;
         birdV := birdV s + GRAVITY;
         pipes := pipes s; loopRef := loopRef s; draws := draws s |}.
Proof.
  intro F. unfold tickBody. fold (integrated s). fold (ceiled s).
  apply Qgtb_lt in F. rewrite F. reflexivity.
Qed.

Lemma tickBody_pipes (sc : Z) (s : state) :
  ceiled s + BIRD_SIZE <= H ->
  let moved := fst (advance W H (pipes s) rand (draws s)) in
  let r := scorePass W H (ceiled s) moved false 0 in
  let s1 :=
    {| running := running s; gameOver := gameOver s;
       score := if (gained r >? 0)%Z then (score s + gained r)%Z
                else score s;
       best := best s; birdY := ceiled s; birdV := birdV s + GRAVITY;
       pipes := newArr r; loopRef := loopRef s;
       draws := snd (advance W H (pipes s) rand (draws s)) |} in
  tickBody W H rand sc s
  = if collided r then triggerGameOver sc s1 else s1.
Proof.
  intro F. unfold tickBody. fold (integrated s). fold (ceiled s).
  apply Qgtb_le in F. rewrite F.
  destruct (advance W H (pipes s) rand (draws s)) as [moved k].
  reflexivity.
Qed.

Lemma tickBody_birdV (sc : Z) (s : state) :
  birdV (tickBody W H rand sc s) = birdV s + GRAVITY.
Proof.
  destruct (Qlt_le_dec H (ceiled s + BIRD_SIZE)) as [F | F].
  - rewrite tickBody_floor by assumption. reflexivity.
  - rewrite tickBody_pipes by assumption. cbv zeta.
    match goal with |- context [collided ?r] => destruct (collided r) end;
      reflexivity.
Qed.

Lemma ceiled_above (s : state) : integrated s < 0 -> ceiled s = 0.
Proof.
  intro L. unfold ceiled. apply Qltb_lt in L. rewrite L. reflexivity.
Qed.

Lemma ceiled_inside (s : state) : 0 <= integrated s -> ceiled s = integrated s.
Proof.
  intro L. unfold ceiled. apply Qltb_ge in L. rewrite L. reflexivity.
Qed.

End TickFacts.

(** Closed numeric facts about concrete sessions are settled by evaluation. *)
Ltac by_eval :=
  repeat match goal with |- _ /\ _ => split end;
  match goal with
  | |- ~ _ => let K := fresh in intro K; vm_compute in K; discriminate K
  | |- _ => vm_compute; first [reflexivity | discriminate]
  end.

(** [evaluated s as E] computes the concrete state [s] once and records the
    result as the equation [E : s = value]. *)
Tactic Notation "evaluated" constr(s) "as" ident(E) :=
  let v := eval vm_compute in s in
  assert (E : s = v) by (vm_compute; reflexivity).

(** ** C5: integration *)

(** C5, as amended.  In every tick the velocity grows by exactly [GRAVITY],
    hence strictly; when neither bound check fires, the position changes by
    exactly the velocity after that increment, that is the pre-tick velocity
    plus [GRAVITY]. *)
Theorem tick_integration (W H : Q) (rand : nat -> Q) (s : state)
    (i : interval) (Hloop : loopRef s = Some i) :
  birdV (tick W H rand s) == birdV s + GRAVITY
  /\ birdV s < birdV (tick W H rand s)
  /\ (0 <= integrated s -> integrated s + BIRD_SIZE <= H ->
      birdY (tick W H rand s) == birdY s + birdV (tick W H rand s)
      /\ birdY (tick W H rand s) - birdY s == birdV s + GRAVITY).
Proof.
  unfold tick. rewrite Hloop. rewrite tickBody_birdV.
  split; [reflexivity |].
  split; [unfold GRAVITY; lra |].
  intros Hc Hf. rewrite tickBody_pipes
    by (rewrite ceiled_inside by assumption; assumption).
  cbv zeta.
  match goal with |- context [collided ?r] => destruct (collided r) end;
    simpl; rewrite ceiled_inside by assumption; unfold integrated;
    split; lra.
Qed.

Lemma tick_integration_witness :
  loopRef Demo.started = Some (mkInterval 0)
  /\ 0 <= integrated Demo.started
  /\ integrated Demo.started + BIRD_SIZE <= Demo.H
  /\ birdV (tick Demo.W Demo.H Demo.rnd Demo.started)
     == birdV Demo.started + GRAVITY
  /\ birdY (tick Demo.W Demo.H Demo.rnd Demo.started) - birdY Demo.started
     == birdV Demo.started + GRAVITY.
Proof.
  assert (L : loopRef Demo.started = Some (mkInterval 0)) by reflexivity.
  assert (C : 0 <= integrated Demo.started) by (vm_compute; discriminate).
  assert (F : integrated Demo.started + BIRD_SIZE <= Demo.H)
    by (vm_compute; discriminate).
  pose proof (tick_integration Demo.W Demo.H Demo.rnd Demo.started _ L)
    as (V & _ & P).
  exact (conj L (conj C (conj F (conj V (proj2 (P C F)))))).
Defined.

(** C5 as stated fails: one tick after the first press, with no new press
    and neither bound check firing, the velocity has gone from -10.5 to -9.9
    and the position has moved by -9.9, not by the pre-tick -10.5. *)
Lemma position_moves_by_new_velocity :
  loopRef Demo.started = Some (mkInterval 0)
  /\ 0 <= integrated Demo.started
  /\ integrated Demo.started + BIRD_SIZE <= Demo.H
  /\ birdV Demo.started == -10.5
  /\ birdV (tick Demo.W Demo.H Demo.rnd Demo.started) == -9.9
  /\ birdY (tick Demo.W Demo.H Demo.rnd Demo.started) - birdY Demo.started
     == -9.9
  /\ ~ (birdY (tick Demo.W Demo.H Demo.rnd Demo.started) - birdY Demo.started
        == birdV Demo.started).
Proof. by_eval. Qed.

(** ** C4: the two bound checks *)

(** C4.  On a screen at least as high as the bird: when the integrated
    position is negative, the tick sets the position to 0, keeps the
    integrated velocity and goes on to the two pipe passes, so the game ends
    in that tick only if a pipe is hit; when the integrated position plus
    [BIRD_SIZE] exceeds the screen height, the position becomes
    [SCREEN_HEIGHT - BIRD_SIZE], the game is over, and pipes, score and the
    random source are left as they were. *)
Theorem tick_bounds (W H : Q) (rand : nat -> Q) (s : state) (i : interval)
    (Hloop : loopRef s = Some i) (Hscreen : BIRD_SIZE <= H) :
  (integrated s < 0 ->
     birdY (tick W H rand s) == 0
     /\ birdV (tick W H rand s) == birdV s + GRAVITY
     /\ pipes (tick W H rand s)
        = map (markScored W) (fst (advance W H (pipes s) rand (draws s)))
     /\ gameOver (tick W H rand s)
        = (gameOver s
           || existsb (hits W H 0)
                (fst (advance W H (pipes s) rand (draws s))))
     /\ (existsb (hits W H 0) (fst (advance W H (pipes s) rand (draws s)))
         = false ->
         running (tick W H rand s) = running s
         /\ loopRef (tick W H rand s) = loopRef s))
  /\ (H < integrated s + BIRD_SIZE ->
      birdY (tick W H rand s) == H - BIRD_SIZE
      /\ birdV (tick W H rand s) == birdV s + GRAVITY
      /\ gameOver (tick W H rand s) = true
      /\ running (tick W H rand s) = false
      /\ loopRef (tick W H rand s) = None
      /\ pipes (tick W H rand s) = pipes s
      /\ score (tick W H rand s) = score s
      /\ draws (tick W H rand s) = draws s).
Proof.
  unfold tick. rewrite Hloop. split.
  - intros Hneg.
    rewrite tickBody_pipes
      by (rewrite ceiled_above by assumption; unfold BIRD_SIZE in *; lra).
    cbv zeta. rewrite scorePass_collided, scorePass_newArr.
    rewrite (ceiled_above s Hneg). simpl orb.
    destruct (existsb (hits W H 0)
                (fst (advance W H (pipes s) rand (draws s)))); simpl.
    + repeat split; try reflexivity.
      * rewrite orb_true_r. reflexivity.
      * discriminate.
      * discriminate.
    + repeat split; try reflexivity; try assumption.
      rewrite orb_false_r. reflexivity.
  - intro Hfloor.
    assert (Hpos : 0 <= integrated s) by (unfold BIRD_SIZE in *; lra).
    rewrite tickBody_floor by (rewrite ceiled_inside by assumption; assumption).
    simpl. repeat split; reflexivity.
Qed.

Lemma tick_bounds_witness :
  (loopRef Demo.nearCeiling = Some (mkInterval 0) /\ BIRD_SIZE <= Demo.H
   /\ integrated Demo.nearCeiling < 0
   /\ birdY (tick Demo.W Demo.H Demo.rnd Demo.nearCeiling) == 0)
  /\ (loopRef Demo.falling = Some (mkInterval 0)
      /\ Demo.H < integrated Demo.falling + BIRD_SIZE
      /\ gameOver (tick Demo.W Demo.H Demo.rnd Demo.falling) = true).
Proof.
  assert (S : BIRD_SIZE <= Demo.H) by (vm_compute; discriminate).
  evaluated Demo.nearCeiling as E1.
  evaluated Demo.falling as E2.
  assert (L1 : loopRef Demo.nearCeiling = Some (mkInterval 0))
    by (rewrite E1; reflexivity).
  assert (N1 : integrated Demo.nearCeiling < 0)
    by (rewrite E1; vm_compute; reflexivity).
  assert (L2 : loopRef Demo.falling = Some (mkInterval 0))
    by (rewrite E2; reflexivity).
  assert (N2 : Demo.H < integrated Demo.falling + BIRD_SIZE)
    by (rewrite E2; vm_compute; reflexivity).
  split.
  - exact (conj L1 (conj S (conj N1 (proj1
      (proj1 (tick_bounds Demo.W Demo.H Demo.rnd Demo.nearCeiling _ L1 S)
         N1))))).
  - exact (conj L2 (conj N2 (proj1 (proj2 (proj2
      (proj2 (tick_bounds Demo.W Demo.H Demo.rnd Demo.falling _ L2 S)
         N2)))))).
Defined.

(** ** The random source and the pipes *)

Section PipeFacts.

Variables W H : Q.
Variable rand : nat -> Q.

Lemma randomTopHeight_eq (k : nat) :
  randomTopHeight H rand k
  = (inject_Z (Qfloor (rand k * (maxTop H - minTop))) + minTop, S k).
Proof. reflexivity. Qed.

Lemma recyclePipe_out (p : pipe) (k : nat) :
  x p + PIPE_WIDTH < 0 ->
  recyclePipe W H p rand k
  = (mkPipe (W + rand k * 120 + 60)
       (fst (randomTopHeight H rand (S k))) false, S (S k)).
Proof.
  intro L. unfold recyclePipe. apply Qltb_lt in L. rewrite L. reflexivity.
Qed.

Lemma recyclePipe_in (p : pipe) (k : nat) :
  0 <= x p + PIPE_WIDTH -> recyclePipe W H p rand k = (p, k).
Proof.
  intro L. unfold recyclePipe. apply Qltb_ge in L. rewrite L. reflexivity.
Qed.

Lemma recyclePipe_cursor (p : pipe) (k : nat) :
  (k <= snd (recyclePipe W H p rand k))%nat.
Proof.
  destruct (Qlt_le_dec (x p + PIPE_WIDTH) 0) as [L | L].
  - rewrite recyclePipe_out by assumption. simpl. lia.
  - rewrite recyclePipe_in by assumption. simpl. lia.
Qed.

Lemma recycle_cons (p : pipe) (rest : list pipe) (k : nat) :
  recycle W H (p :: rest) rand k
  = (fst (recyclePipe W H p rand k)
       :: fst (recycle W H rest rand (snd (recyclePipe W H p rand k))),
     snd (recycle W H rest rand (snd (recyclePipe W H p rand k)))).
Proof.
  simpl. unfold Rnd.bind.
  destruct (recyclePipe W H p rand k) as [p' k1]. simpl.
  destruct (recycle W H rest rand k1) as [rest' k2]. reflexivity.
Qed.

Lemma recycle_cursor (ps : list pipe) (k : nat) :
  (k <= snd (recycle W H ps rand k))%nat.
Proof.
  revert k. induction ps as [| p rest IH]; intro k.
  - simpl. lia.
  - rewrite recycle_cons. simpl.
    pose proof (recyclePipe_cursor p k).
    pose proof (IH (snd (recyclePipe W H p rand k))). lia.
Qed.

Lemma recycle_length (ps : list pipe) (k : nat) :
  length (fst (recycle W H ps rand k)) = length ps.
Proof.
  revert k. induction ps as [| p rest IH]; intro k.
  - reflexivity.
  - rewrite recycle_cons. simpl. rewrite IH. reflexivity.
Qed.

(** Slot [i] of the result is slot [i] of the argument, passed through
    [recyclePipe] at some later position of the random source. *)
Lemma recycle_nth (ps : list pipe) (k i : nat) (p : pipe) :
  nth_error ps i = Some p ->
  exists j, (k <= j)%nat
    /\ (snd (recyclePipe W H p rand j) <= snd (recycle W H ps rand k))%nat
    /\ nth_error (fst (recycle W H ps rand k)) i
       = Some (fst (recyclePipe W H p rand j)).
Proof.
  revert k i. induction ps as [| a rest IH]; intros k i Hn.
  - destruct i; discriminate.
  - rewrite recycle_cons. destruct i as [| i]; simpl in *.
    + injection Hn as ->. exists k. split; [lia |]. split; [| reflexivity].
      apply recycle_cursor.
    + destruct (IH (snd (recyclePipe W H a rand k)) i Hn)
        as (j & Hj & Hk & Hq).
      exists j. pose proof (recyclePipe_cursor a k).
      split; [lia |]. split; assumption.
Qed.

Lemma recycle_nth_none (ps : list pipe) (k i : nat) :
  nth_error ps i = None -> nth_error (fst (recycle W H ps rand k)) i = None.
Proof.
  intro N. apply nth_error_None. rewrite recycle_length.
  apply nth_error_None. assumption.
Qed.

Lemma recyclePipe_scored (p : pipe) (k : nat) :
  scored (fst (recyclePipe W H p rand k))
  = if Qltb (x p + PIPE_WIDTH) 0 then false else scored p.
Proof.
  unfold recyclePipe. destruct (Qltb (x p + PIPE_WIDTH) 0); reflexivity.
Qed.

Lemma markScored_topHeight (p : pipe) :
  topHeight (markScored W p) = topHeight p.
Proof. unfold markScored. destruct (passes W p); reflexivity. Qed.

(** A draw scaled by 120 and shifted by 60 lies in [60, 180). *)
Lemma spacing_range (k : nat) :
  unitDraws rand -> 60 <= rand k * 120 + 60 /\ rand k * 120 + 60 < 180.
Proof. intro U. destruct (U k). split; lra. Qed.

(** [randomTopHeight] on a non-empty range. *)
Lemma randomTopHeight_range (k : nat) :
  unitDraws rand -> minTop < maxTop H ->
  exists z : Z,
    fst (randomTopHeight H rand k) == inject_Z z
    /\ minTop <= inject_Z z /\ inject_Z z < maxTop H.
Proof.
  intros U Hne. rewrite randomTopHeight_eq. simpl fst.
  destruct (U k) as [R0 R1].
  set (d := maxTop H - minTop) in *.
  assert (Hd : 0 < d) by (unfold d; lra).
  assert (P0 : 0 <= rand k * d) by (apply Qmult_le_0_compat; lra).
  assert (P1 : rand k * d < d).
  { setoid_replace d with (1 * d) at 2 by ring.
    apply Qmult_lt_compat_r; assumption. }
  pose proof (Qfloor_le (rand k * d)) as F1.
  assert (F0 : (0 <= Qfloor (rand k * d))%Z).
  { change 0%Z with (Qfloor 0). apply Qfloor_resp_le. assumption. }
  exists (Qfloor (rand k * d) + 60)%Z.
  rewrite inject_Z_plus. unfold minTop in *.
  assert (Z0 : 0 <= inject_Z (Qfloor (rand k * d)))
    by (change 0 with (inject_Z 0); rewrite <- Zle_Qle; assumption).
  change (inject_Z 60) with 60.
  split; [reflexivity |]. split; [lra |]. unfold d in *. lra.
Qed.

End PipeFacts.

(** ** C6: advancing and recycling *)

(** C6.  [advance] keeps the number of pipes, and slot [i] of its result
    comes from slot [i] of its argument: the pipe is first moved left by
    exactly [PIPE_SPEED]; if its right edge is then strictly left of 0 it is
    given [x = SCREEN_WIDTH + d] for a [d] in [60, 180) drawn from the random
    source, the next value of [randomTopHeight] as [topHeight], and
    [scored = false]; otherwise it keeps the moved position, its [topHeight]
    and its flag. *)
Theorem advance_recycles_in_place (W H : Q) (rand : nat -> Q)
    (prev : list pipe) (k : nat) (Hdraws : unitDraws rand) :
  length (fst (advance W H prev rand k)) = length prev
  /\ forall (i : nat) (p : pipe),
       nth_error prev i = Some p ->
       nth_error (map movePipe prev) i = Some (movePipe p)
       /\ x (movePipe p) == x p - PIPE_SPEED
       /\ exists q : pipe,
            nth_error (fst (advance W H prev rand k)) i = Some q
            /\ (x p - PIPE_SPEED + PIPE_WIDTH < 0 ->
                exists j : nat,
                  (k <= j)%nat
                  /\ (S j < snd (advance W H prev rand k))%nat
                  /\ x q == W + (rand j * 120 + 60)
                  /\ 60 <= rand j * 120 + 60 /\ rand j * 120 + 60 < 180
                  /\ topHeight q = fst (randomTopHeight H rand (S j))
                  /\ scored q = false)
            /\ (0 <= x p - PIPE_SPEED + PIPE_WIDTH ->
                x q == x p - PIPE_SPEED
                /\ topHeight q = topHeight p
                /\ scored q = scored p).
Proof.
  unfold advance. split.
  - rewrite recycle_length. apply length_map.
  - intros i p Hn.
    assert (Hm : nth_error (map movePipe prev) i = Some (movePipe p))
      by (rewrite nth_error_map, Hn; reflexivity).
    split; [exact Hm |]. split; [reflexivity |].
    destruct (recycle_nth W H rand _ k i _ Hm) as (j & Hj & Hk & Hq).
    exists (fst (recyclePipe W H (movePipe p) rand j)).
    split; [exact Hq |]. split.
    + intro L. change (x (movePipe p) + PIPE_WIDTH < 0) in L.
      rewrite (recyclePipe_out W H rand _ j L) in *. simpl in *.
      exists j. pose proof (spacing_range rand j Hdraws) as [S1 S2].
      repeat split; try assumption; try lia; try reflexivity.
      ring.
    + intro L. change (0 <= x (movePipe p) + PIPE_WIDTH) in L.
      rewrite (recyclePipe_in W H rand _ j L). simpl.
      repeat split; reflexivity.
Qed.

Lemma advance_recycles_in_place_witness :
  unitDraws Demo.half
  /\ length (fst (advance Demo.W Demo.H
                    [mkPipe (-69) 100 true; mkPipe 200 300 false]
                    Demo.half 0%nat)) = 2%nat.
Proof.
  assert (U : unitDraws Demo.half)
    by (intro n; split; [discriminate | reflexivity]).
  split; [exact U |].
  exact (proj1 (advance_recycles_in_place Demo.W Demo.H Demo.half
                  [mkPipe (-69) 100 true; mkPipe 200 300 false] 0%nat U)).
Defined.

(** ** C7: the range of [topHeight] *)

Section TopHeightInvariant.

Variables W H : Q.
Variable rand : nat -> Q.
Hypothesis Hdraws : unitDraws rand.
Hypothesis Hrange : minTop < maxTop H.

Lemma drawn_inRange (k : nat) (a : Q) (b : bool) :
  (inRange H) (mkPipe a (fst (randomTopHeight H rand k)) b).
Proof.
  destruct (randomTopHeight_range H rand k Hdraws Hrange) as (z & E & L & U).
  unfold inRange. simpl topHeight. rewrite E. split; lra.
Qed.

Lemma initialPipes_inRange (k : nat) :
  Forall (inRange H) (fst (initialPipes W H rand k)).
Proof.
  unfold initialPipes, Rnd.bind, Rnd.ret. rewrite !randomTopHeight_eq.
  simpl fst. repeat constructor;
    first [apply (drawn_inRange k) | apply (drawn_inRange (S k))].
Qed.

Lemma recycle_inRange (ps : list pipe) (k : nat) :
  Forall (inRange H) ps -> Forall (inRange H) (fst (recycle W H ps rand k)).
Proof.
  revert k. induction ps as [| p rest IH]; intros k F.
  - constructor.
  - rewrite recycle_cons. simpl. inversion F as [| ? ? Hp Hrest]; subst.
    constructor; [| apply IH; assumption].
    destruct (Qlt_le_dec (x p + PIPE_WIDTH) 0) as [L | L].
    + rewrite recyclePipe_out by assumption. apply drawn_inRange.
    + rewrite recyclePipe_in by assumption. assumption.
Qed.

Lemma tick_inRange (s : state) :
  Forall (inRange H) (pipes s) -> Forall (inRange H) (pipes (tick W H rand s)).
Proof.
  intro F. unfold tick. destruct (loopRef s) as [i |]; [| assumption].
  destruct (Qlt_le_dec H (ceiled s + BIRD_SIZE)) as [L | L].
  - rewrite tickBody_floor by assumption. assumption.
  - rewrite tickBody_pipes by assumption. cbv zeta.
    assert (G : Forall (inRange H)
                  (map (markScored W)
                     (fst (advance W H (pipes s) rand (draws s))))).
    { apply Forall_map. unfold advance.
      eapply Forall_impl; [| apply recycle_inRange].
      - intros p Hp. unfold inRange. rewrite markScored_topHeight. exact Hp.
      - apply Forall_map. eapply Forall_impl; [| exact F].
        intros p Hp. exact Hp. }
    rewrite <- (scorePass_newArr W H (ceiled s) _ false 0) in G.
    match goal with |- context [collided ?r] => destruct (collided r) end;
      exact G.
Qed.

Lemma reachable_inRange (s : state) :
  reachable W H rand s -> Forall (inRange H) (pipes s).
Proof.
  induction 1 as [| s e R IH].
  - unfold mount.
    pose proof (initialPipes_inRange 0%nat) as F.
    destruct (initialPipes W H rand 0%nat) as [ps k]. exact F.
  - assert (G : Forall (inRange H) (pipes (handle W H rand e s))).
    { destruct e; unfold handle.
      - exact IH.
      - unfold resetGame.
        pose proof (initialPipes_inRange (draws s)) as F.
        destruct (initialPipes W H rand (draws s)) as [ps k]. exact F.
      - apply tick_inRange. exact IH. }
    unfold dispatch, gameLoopEffect.
    destruct (Bool.eqb (running s) (running (handle W H rand e s)));
      exact G.
Qed.

End TopHeightInvariant.

(** C7.  When the draws are in [0, 1) and the range is not empty, every
    value of [randomTopHeight] is an integer in [minTop, maxTop), and in
    every state the component can reach, every pipe, whether it comes from
    the initial layout, from [resetGame] or from a recycle, has
    [minTop <= topHeight <= maxTop]. *)
Theorem topHeight_in_range (W H : Q) (rand : nat -> Q)
    (Hdraws : unitDraws rand) (Hrange : minTop < maxTop H) :
  (forall k : nat, exists z : Z,
      fst (randomTopHeight H rand k) == inject_Z z
      /\ minTop <= inject_Z z /\ inject_Z z < maxTop H)
  /\ (forall s : state, reachable W H rand s ->
      forall p : pipe, In p (pipes s) ->
        minTop <= topHeight p /\ topHeight p <= maxTop H).
Proof.
  split.
  - intro k. apply randomTopHeight_range; assumption.
  - intros s R p Hin.
    pose proof (reachable_inRange W H rand Hdraws Hrange s R) as F.
    rewrite Forall_forall in F. exact (F p Hin).
Qed.

Lemma topHeight_in_range_witness :
  unitDraws Demo.rnd /\ minTop < maxTop Demo.H
  /\ exists z : Z,
       fst (randomTopHeight Demo.H Demo.rnd 0%nat) == inject_Z z
       /\ minTop <= inject_Z z /\ inject_Z z < maxTop Demo.H.
Proof.
  assert (U : unitDraws Demo.rnd)
    by (intro n; split; [discriminate | reflexivity]).
  assert (R : minTop < maxTop Demo.H) by reflexivity.
  exact (conj U (conj R
    (proj1 (topHeight_in_range Demo.W Demo.H Demo.rnd U R) 0%nat))).
Defined.

(** ** C3: scoring *)

Section ScoringFacts.

Variables W H : Q.
Variable rand : nat -> Q.

Lemma dispatch_pipes (e : event) (s : state) :
  pipes (dispatch W H rand e s) = pipes (handle W H rand e s).
Proof.
  unfold dispatch, gameLoopEffect.
  destruct (Bool.eqb (running s) (running (handle W H rand e s)));
    reflexivity.
Qed.

Lemma tick_pipes_reached (s : state) :
  reachesPipes H s = true ->
  pipes (tick W H rand s)
  = map (markScored W) (fst (advance W H (pipes s) rand (draws s))).
Proof.
  unfold reachesPipes, tick. destruct (loopRef s) as [i |]; [| discriminate].
  rewrite negb_true_iff, Qgtb_le. intro F.
  rewrite tickBody_pipes by assumption. cbv zeta.
  rewrite <- (scorePass_newArr W H (ceiled s) _ false 0).
  match goal with |- context [collided ?r] => destruct (collided r) end;
    reflexivity.
Qed.

Lemma tick_pipes_skipped (s : state) :
  reachesPipes H s = false -> pipes (tick W H rand s) = pipes s.
Proof.
  unfold reachesPipes, tick. destruct (loopRef s) as [i |]; [| reflexivity].
  rewrite negb_false_iff, Qgtb_lt. intro F.
  rewrite tickBody_floor by assumption. reflexivity.
Qed.

Lemma tick_score_reached (s : state) :
  reachesPipes H s = true ->
  score (tick W H rand s)
  = (score s
     + Z.of_nat (length (filter (passes W)
                           (fst (advance W H (pipes s) rand (draws s))))))%Z.
Proof.
  unfold reachesPipes, tick. destruct (loopRef s) as [i |]; [| discriminate].
  rewrite negb_true_iff, Qgtb_le. intro F.
  rewrite tickBody_pipes by assumption. cbv zeta.
  rewrite scorePass_gained.
  set (n := length (filter (passes W)
                      (fst (advance W H (pipes s) rand (draws s))))).
  assert (E : score (triggerGameOver (closure_score i)
                {| running := running s; gameOver := gameOver s;
                   score := if (0 + Z.of_nat n >? 0)%Z
                            then (score s + (0 + Z.of_nat n))%Z
                            else score s;
                   best := best s; birdY := ceiled s;
                   birdV := birdV s + GRAVITY;
                   pipes := newArr (scorePass W H (ceiled s)
                              (fst (advance W H (pipes s) rand (draws s)))
                              false 0);
                   loopRef := loopRef s;
                   draws := snd (advance W H (pipes s) rand (draws s)) |})
              = (score s + Z.of_nat n)%Z).
  { simpl. destruct (Z.of_nat n >? 0)%Z eqn:G; [reflexivity |].
    rewrite Z.gtb_ltb, Z.ltb_ge in G. lia. }
  match goal with |- context [collided ?r] => destruct (collided r) end;
    exact E.
Qed.

Lemma tick_gameOver_reached (s : state) :
  reachesPipes H s = true ->
  gameOver (tick W H rand s)
  = (gameOver s
     || existsb (hits W H (ceiled s))
          (fst (advance W H (pipes s) rand (draws s)))).
Proof.
  unfold reachesPipes, tick. destruct (loopRef s) as [i |]; [| discriminate].
  rewrite negb_true_iff, Qgtb_le. intro F.
  rewrite tickBody_pipes by assumption. cbv zeta.
  rewrite scorePass_collided. simpl orb.
  destruct (existsb (hits W H (ceiled s))
              (fst (advance W H (pipes s) rand (draws s)))); simpl.
  - rewrite orb_true_r. reflexivity.
  - rewrite orb_false_r. reflexivity.
Qed.

Lemma markScored_scored (p : pipe) :
  scored (markScored W p) = (passes W p || scored p).
Proof. unfold markScored. destruct (passes W p); reflexivity. Qed.

Lemma passes_scored (p : pipe) : scored p = true -> passes W p = false.
Proof. intro S. unfold passes. rewrite S. reflexivity. Qed.

(** One event that does not renew slot [i]: a set flag stays set and
    awards nothing, and a point sets the flag. *)
Lemma slot_step (i : nat) (e : event) (s : state) :
  e <> Retry ->
  (e = Timer -> recycledIn H i s = false) ->
  let pt := match e with Timer => scoresIn W H rand i s | _ => false end in
  (slotScored i s = true ->
     pt = false /\ slotScored i (dispatch W H rand e s) = true)
  /\ (pt = true -> slotScored i (dispatch W H rand e s) = true).
Proof.
  intros NR NC pt.
  assert (E : slotScored i (dispatch W H rand e s)
              = match nth_error (pipes (handle W H rand e s)) i with
                | Some p => scored p
                | None => false
                end)
    by (unfold slotScored; rewrite dispatch_pipes; reflexivity).
  rewrite E. clear E.
  destruct e; [| congruence |]; subst pt; simpl handle.
  - split; [intro S; split; [reflexivity | exact S] | discriminate].
  - specialize (NC eq_refl). unfold recycledIn in NC. unfold scoresIn.
    destruct (reachesPipes H s) eqn:RP; simpl andb in *.
    + rewrite tick_pipes_reached by assumption.
      rewrite nth_error_map. unfold slotScored, advance.
      destruct (nth_error (pipes s) i) as [p |] eqn:Hn.
      * assert (Hm : nth_error (map movePipe (pipes s)) i
                     = Some (movePipe p))
          by (rewrite nth_error_map, Hn; reflexivity).
        destruct (recycle_nth W H rand _ (draws s) i _ Hm)
          as (j & _ & _ & Hq).
        rewrite Hq. simpl option_map. cbv iota.
        rewrite markScored_scored.
        pose proof (recyclePipe_scored W H rand (movePipe p) j) as Sc.
        change (Qltb (x (movePipe p) + PIPE_WIDTH) 0 = false) in NC.
        rewrite NC in Sc. simpl scored in Sc.
        split.
        -- intro S. rewrite passes_scored by congruence.
           split; [reflexivity | simpl; congruence].
        -- intro P. rewrite P. reflexivity.
      * rewrite (recycle_nth_none W H rand (map movePipe (pipes s))
                   (draws s) i)
          by (rewrite nth_error_map, Hn; reflexivity).
        split; discriminate.
    + rewrite tick_pipes_skipped by assumption.
      split; [intro S; split; [reflexivity | exact S] | discriminate].
Qed.

(** Between two renewals a slot awards at most one point, and none if its
    flag is already set. *)
Lemma points_between_renewals (i : nat) (es : list event) (s : state) :
  renewedAlong W H rand i es s = false ->
  (pointsAlong W H rand i es s <= 1)%nat
  /\ (slotScored i s = true -> pointsAlong W H rand i es s = 0%nat).
Proof.
  revert s. induction es as [| e rest IH]; intros s R.
  - simpl. split; [lia | reflexivity].
  - simpl in R. apply orb_false_iff in R as [R1 R2].
    destruct (IH _ R2) as [B Z0].
    assert (NR : e <> Retry) by (intro; subst; discriminate).
    assert (NC : e = Timer -> recycledIn H i s = false)
      by (intro; subst; exact R1).
    destruct (slot_step i e s NR NC) as [K1 K2].
    simpl pointsAlong.
    destruct e; [| congruence |].
    + split; [lia |]. intro S. destruct (K1 S) as [_ S']. rewrite (Z0 S').
      reflexivity.
    + destruct (scoresIn W H rand i s) eqn:P.
      * rewrite (Z0 (K2 eq_refl)). split; [lia |].
        intro S. destruct (K1 S). discriminate.
      * split; [lia |]. intro S. destruct (K1 S) as [_ S'].
        rewrite (Z0 S'). reflexivity.
Qed.

(** Once the pass has run, no pipe is left waiting for its point. *)
Lemma markScored_settled (p : pipe) : passes W (markScored W p) = false.
Proof.
  unfold markScored. destruct (passes W p) eqn:E; [reflexivity | exact E].
Qed.

Lemma initialPipes_settled (k : nat) :
  0 <= W ->
  Forall (fun p => passes W p = false) (fst (initialPipes W H rand k)).
Proof.
  intro Wpos. unfold initialPipes, Rnd.bind, Rnd.ret.
  rewrite !randomTopHeight_eq. simpl fst.
  apply Forall_cons; [| apply Forall_cons; [| apply Forall_nil]];
    unfold passes; simpl negb; rewrite andb_true_l;
    apply Qgtb_le; unfold birdCenterX, BIRD_X, BIRD_SIZE, PIPE_WIDTH;
    simpl x; setoid_replace (40 / 2) with 20 by reflexivity; lra.
Qed.

Lemma reachable_settled (s : state) :
  0 <= W -> reachable W H rand s ->
  Forall (fun p => passes W p = false) (pipes s).
Proof.
  intros Wpos R. induction R as [| s e R IH].
  - unfold mount. pose proof (initialPipes_settled 0%nat Wpos) as F.
    destruct (initialPipes W H rand 0%nat) as [ps k]. exact F.
  - rewrite dispatch_pipes. destruct e; unfold handle.
    + exact IH.
    + unfold resetGame.
      pose proof (initialPipes_settled (draws s) Wpos) as F.
      destruct (initialPipes W H rand (draws s)) as [ps k]. exact F.
    + destruct (reachesPipes H s) eqn:RP.
      * rewrite tick_pipes_reached by assumption.
        apply Forall_map, Forall_forall. intros p _.
        apply markScored_settled.
      * rewrite tick_pipes_skipped by assumption. exact IH.
Qed.

Lemma tick_score_skipped (s : state) :
  reachesPipes H s = false -> score (tick W H rand s) = score s.
Proof.
  unfold reachesPipes, tick. destruct (loopRef s) as [i |]; [| reflexivity].
  rewrite negb_false_iff, Qgtb_lt. intro F.
  rewrite tickBody_floor by assumption. reflexivity.
Qed.

End ScoringFacts.

(** C3.  A pipe awards a point exactly when its flag is unset and the
    bird's horizontal centre is strictly beyond its right edge, and its flag
    is then set.  In a tick that reaches the pipe passes this is applied to
    every pipe of the advanced array, and the score grows by the number of
    such pipes whether or not a pipe is hit in the same tick, in which case
    the game is also over.  A tick that stops at the floor check skips no
    point: between events no pipe of a reachable state is waiting for one.
    Along any sequence of events in which a slot is neither recycled nor
    reset it awards at most one point, and none once its flag is set. *)
Theorem scoring_pass (W H : Q) (rand : nat -> Q) :
  (forall p : pipe,
      passes W p = true <->
      scored p = false /\ x p + PIPE_WIDTH < birdCenterX W)
  /\ (forall p : pipe,
      (passes W p = true ->
         markScored W p = mkPipe (x p) (topHeight p) true)
      /\ (passes W p = false -> markScored W p = p))
  /\ (forall s : state,
      reachesPipes H s = true ->
      pipes (tick W H rand s)
      = map (markScored W) (fst (advance W H (pipes s) rand (draws s)))
      /\ score (tick W H rand s)
         = (score s
            + Z.of_nat (length (filter (passes W)
                          (fst (advance W H (pipes s) rand (draws s))))))%Z
      /\ (existsb (hits W H (ceiled s))
            (fst (advance W H (pipes s) rand (draws s))) = true ->
          gameOver (tick W H rand s) = true))
  /\ (forall s : state,
      0 <= W -> reachable W H rand s ->
      Forall (fun p => passes W p = false) (pipes s)
      /\ (reachesPipes H s = false ->
          pipes (tick W H rand s) = pipes s
          /\ score (tick W H rand s) = score s))
  /\ (forall (i : nat) (es : list event) (s0 : state),
      renewedAlong W H rand i es s0 = false ->
      (pointsAlong W H rand i es s0 <= 1)%nat
      /\ (slotScored i s0 = true -> pointsAlong W H rand i es s0 = 0%nat)).
Proof.
  split; [apply passes_iff |].
  split.
  { intro p. unfold markScored.
    split; intro P; rewrite P; reflexivity. }
  split.
  { intros s Hreach.
    split; [apply tick_pipes_reached; assumption |].
    split; [apply tick_score_reached; assumption |].
    intro C. rewrite tick_gameOver_reached by assumption.
    rewrite C. apply orb_true_r. }
  split.
  { intros s Wpos R.
    split; [apply (reachable_settled W H rand); assumption |].
    intro Skip.
    split; [apply tick_pipes_skipped | apply tick_score_skipped];
      assumption. }
  apply points_between_renewals.
Qed.

Lemma scoring_pass_witness :
  reachesPipes Demo.H Demo.grazing = true
  /\ score (tick Demo.W Demo.H Demo.rnd Demo.grazing)
     = (score Demo.grazing
        + Z.of_nat (length (filter (passes Demo.W)
                      (fst (advance Demo.W Demo.H (pipes Demo.grazing)
                              Demo.rnd (draws Demo.grazing))))))%Z
  /\ gameOver (tick Demo.W Demo.H Demo.rnd Demo.grazing) = true.
Proof.
  assert (R : reachesPipes Demo.H Demo.grazing = true)
    by (vm_compute; reflexivity).
  assert (C : existsb (hits Demo.W Demo.H (ceiled Demo.grazing))
                (fst (advance Demo.W Demo.H (pipes Demo.grazing)
                        Demo.rnd (draws Demo.grazing))) = true)
    by (vm_compute; reflexivity).
  pose proof (scoring_pass Demo.W Demo.H Demo.rnd) as (_ & _ & T & _).
  destruct (T Demo.grazing R) as (_ & S & G).
  exact (conj R (conj S (G C))).
Defined.

(** ** The lifecycle *)

Section LifecycleFacts.

Variables W H : Q.
Variable rand : nat -> Q.

Lemma gameLoopEffect_cells (b : bool) (s : state) :
  running (gameLoopEffect b s) = running s
  /\ gameOver (gameLoopEffect b s) = gameOver s
  /\ score (gameLoopEffect b s) = score s
  /\ best (gameLoopEffect b s) = best s
  /\ birdY (gameLoopEffect b s) = birdY s
  /\ birdV (gameLoopEffect b s) = birdV s
  /\ pipes (gameLoopEffect b s) = pipes s
  /\ draws (gameLoopEffect b s) = draws s.
Proof.
  unfold gameLoopEffect. destruct (Bool.eqb b (running s));
    repeat split; reflexivity.
Qed.

Lemma gameLoopEffect_same (s : state) : gameLoopEffect (running s) s = s.
Proof. unfold gameLoopEffect. rewrite Bool.eqb_reflx. reflexivity. Qed.

Lemma dispatch_best (e : event) (s : state) :
  best (dispatch W H rand e s) = best (handle W H rand e s).
Proof. unfold dispatch. apply gameLoopEffect_cells. Qed.

Lemma dispatch_gameOver (e : event) (s : state) :
  gameOver (dispatch W H rand e s) = gameOver (handle W H rand e s).
Proof. unfold dispatch. apply gameLoopEffect_cells. Qed.

Lemma triggerGameOver_best (sc : Z) (s : state) :
  best (triggerGameOver sc s) = Z.max (best s) sc.
Proof.
  unfold triggerGameOver. simpl.
  destruct (sc >? best s)%Z eqn:G.
  - rewrite Z.gtb_ltb, Z.ltb_lt in G. lia.
  - rewrite Z.gtb_ltb, Z.ltb_ge in G. lia.
Qed.

Lemma resetGame_cells (s : state) :
  running (resetGame W H rand s) = false
  /\ gameOver (resetGame W H rand s) = false
  /\ score (resetGame W H rand s) = 0%Z
  /\ best (resetGame W H rand s) = best s
  /\ loopRef (resetGame W H rand s) = loopRef s.
Proof.
  unfold resetGame. destruct (initialPipes W H rand (draws s)).
  repeat split; reflexivity.
Qed.

(** The tick either ends the game through [triggerGameOver] or leaves the
    lifecycle cells alone. *)
Lemma tickBody_lifecycle (sc : Z) (s : state) :
  (gameOver (tickBody W H rand sc s) = true
   /\ running (tickBody W H rand sc s) = false
   /\ loopRef (tickBody W H rand sc s) = None
   /\ best (tickBody W H rand sc s) = Z.max (best s) sc)
  \/ (gameOver (tickBody W H rand sc s) = gameOver s
      /\ running (tickBody W H rand sc s) = running s
      /\ loopRef (tickBody W H rand sc s) = loopRef s
      /\ best (tickBody W H rand sc s) = best s).
Proof.
  destruct (Qlt_le_dec H (ceiled s + BIRD_SIZE)) as [F | F].
  - left. rewrite tickBody_floor by assumption.
    rewrite triggerGameOver_best. repeat split; reflexivity.
  - rewrite tickBody_pipes by assumption. cbv zeta.
    match goal with |- context [collided ?r] => destruct (collided r) end.
    + left. rewrite triggerGameOver_best. repeat split; reflexivity.
    + right. repeat split; reflexivity.
Qed.

Lemma mount_coherent : coherent (mount W H rand) /\ best (mount W H rand) = 0%Z.
Proof.
  unfold mount. destruct (initialPipes W H rand 0%nat) as [ps k].
  unfold coherent. simpl. repeat split; try congruence; try discriminate.
Qed.

Lemma dispatch_coherent (e : event) (s : state) :
  coherent s /\ best s = 0%Z ->
  coherent (dispatch W H rand e s) /\ best (dispatch W H rand e s) = 0%Z.
Proof.
  intros [(RL & GR & Idle & Cl) B]. rewrite dispatch_best.
  unfold dispatch. destruct e; unfold handle.
  - (* Press *)
    split; [| exact B]. unfold coherent, gameLoopEffect, startIfNeeded.
    simpl. destruct (running s) eqn:R, (gameOver s) eqn:G; simpl.
    + specialize (GR eq_refl). discriminate.
    + repeat split; try tauto; try discriminate. 
    + repeat split; try tauto; try discriminate.
    + rewrite (Idle eq_refl eq_refl).
      repeat split; try congruence; try discriminate.
      intros i E. injection E as <-. reflexivity.
  - (* Retry *)
    destruct (resetGame_cells s) as (R & G & S & B' & L).
    split; [| congruence].
    unfold coherent, gameLoopEffect. rewrite R.
    destruct (running s) eqn:Rs; simpl; rewrite ?R, ?G, ?S, ?L.
    + repeat split; try congruence; try discriminate.
    + assert (N : loopRef s = None).
      { destruct (loopRef s) eqn:E; [| reflexivity].
        assert (false = true) by (apply RL; discriminate). discriminate. }
      rewrite N. repeat split; try congruence; try discriminate.
  - (* Timer *)
    unfold tick. destruct (loopRef s) as [i |] eqn:L.
    + assert (Rs : running s = true) by (apply RL; discriminate).
      cbv beta iota. rewrite (Cl i eq_refl).
      destruct (tickBody_lifecycle 0 s)
        as [(G & R & L' & B') | (G & R & L' & B')].
      * split; [| rewrite B'; lia].
        unfold coherent, gameLoopEffect. rewrite R, Rs. simpl.
        rewrite ?G. repeat split; try congruence; try discriminate.
      * split; [| congruence].
        unfold gameLoopEffect. rewrite R, Rs, Bool.eqb_reflx.
        unfold coherent. rewrite R, G, L', L, Rs.
        repeat split; try congruence; try discriminate.
        -- intro Go. apply GR in Go. congruence.
        -- intros i0 E. apply Cl. exact E.
    + rewrite gameLoopEffect_same.
      split; [| exact B]. unfold coherent. rewrite L.
      exact (conj RL (conj GR (conj Idle Cl))).
Qed.

Lemma reachable_coherent (s : state) :
  reachable W H rand s -> coherent s /\ best s = 0%Z.
Proof.
  induction 1 as [| s e R IH].
  - apply mount_coherent.
  - apply dispatch_coherent. exact IH.
Qed.

Lemma run_reachable (es : list event) (s : state) :
  reachable W H rand s -> reachable W H rand (run W H rand es s).
Proof.
  revert s. induction es as [| e rest IH]; intros s R; simpl.
  - exact R.
  - apply IH. constructor. exact R.
Qed.

End LifecycleFacts.

(** ** C1: the best score at game over *)

(** C1 fails on the code.  The tick that ends the game replaces [best] by
    the maximum of [best] and the score its callback closed over when the
    interval was installed, not the score at the collision; that closed-over
    score is 0 in every reachable state, so [best] is 0 in every reachable
    state.  In the session [Demo.beforeCrash] the game is running with
    score 1 and best 0, and after the tick that ends it the score is 1 and
    best is still 0; likewise the tick that drops the bird of [Demo.seven]
    on the floor ends the game with score 7 and best 0. *)
Theorem best_misses_final_score :
  (forall (W H : Q) (rand : nat -> Q) (s : state) (i : interval),
      loopRef s = Some i ->
      gameOver s = false ->
      gameOver (dispatch W H rand Timer s) = true ->
      best (dispatch W H rand Timer s) = Z.max (best s) (closure_score i))
  /\ (forall (W H : Q) (rand : nat -> Q) (s : state),
      reachable W H rand s ->
      best s = 0%Z /\ forall i, loopRef s = Some i -> closure_score i = 0%Z)
  /\ reachable Demo.W Demo.H Demo.rnd Demo.beforeCrash
  /\ Demo.lastTick = ((true, false, 1%Z, 0%Z), (false, true, 1%Z, 0%Z))
  /\ Demo.report (dispatch Demo.W Demo.H Demo.rnd Timer Demo.seven)
     = (false, true, 7%Z, 0%Z).
Proof.
  split; [| split; [| split; [| split]]].
  - intros W H rand s i L G G'.
    rewrite dispatch_gameOver in G'. rewrite dispatch_best.
    unfold handle, tick in *. rewrite L in *.
    destruct (tickBody_lifecycle W H rand (closure_score i) s)
      as [(_ & _ & _ & B) | (G2 & _)]; [exact B | congruence].
  - intros W H rand s R.
    destruct (reachable_coherent W H rand s R) as [(_ & _ & _ & Cl) B].
    split; assumption.
  - apply run_reachable. apply reach_mount.
  - vm_compute. reflexivity.
  - vm_compute. reflexivity.
Qed.

(** ** C10: the best score never decreases *)

(** C10.  No event lowers [best], hence no sequence of events does;
    [resetGame] and a press leave it unchanged, so does a tick after which
    the game is not over, and [triggerGameOver] replaces it by the maximum of
    itself and another value. *)
Theorem best_never_decreases (W H : Q) (rand : nat -> Q) :
  (forall (e : event) (s : state),
      (best s <= best (dispatch W H rand e s))%Z)
  /\ (forall (es : list event) (s : state),
      (best s <= best (run W H rand es s))%Z)
  /\ (forall s : state, best (dispatch W H rand Retry s) = best s)
  /\ (forall s : state, best (dispatch W H rand Press s) = best s)
  /\ (forall s : state,
      gameOver (dispatch W H rand Timer s) = false ->
      best (dispatch W H rand Timer s) = best s)
  /\ (forall (sc : Z) (s : state),
      best (triggerGameOver sc s) = Z.max (best s) sc
      /\ (best s <= best (triggerGameOver sc s))%Z).
Proof.
  assert (Retry_same : forall s, best (dispatch W H rand Retry s) = best s).
  { intro s. rewrite dispatch_best. apply resetGame_cells. }
  assert (Press_same : forall s, best (dispatch W H rand Press s) = best s).
  { intro s. rewrite dispatch_best. reflexivity. }
  assert (Timer_cases : forall s,
             best (dispatch W H rand Timer s) = best s
             \/ (gameOver (dispatch W H rand Timer s) = true
                 /\ (best s <= best (dispatch W H rand Timer s))%Z)).
  { intro s. rewrite dispatch_best, dispatch_gameOver. unfold handle, tick.
    destruct (loopRef s) as [i |]; [| left; reflexivity].
    destruct (tickBody_lifecycle W H rand (closure_score i) s)
      as [(G & _ & _ & B) | (_ & _ & _ & B)].
    - right. split; [exact G | rewrite B; lia].
    - left. exact B. }
  assert (Step : forall e s, (best s <= best (dispatch W H rand e s))%Z).
  { intros [| |] s.
    - rewrite Press_same. lia.
    - rewrite Retry_same. lia.
    - destruct (Timer_cases s) as [E | [_ L]]; [rewrite E; lia | exact L]. }
  split; [exact Step |].
  split.
  { intro es. induction es as [| e rest IH]; intro s; simpl.
    - lia.
    - specialize (IH (dispatch W H rand e s)). specialize (Step e s). lia. }
  split; [exact Retry_same |].
  split; [exact Press_same |].
  split.
  { intros s G. destruct (Timer_cases s) as [E | [G' _]];
      [exact E | congruence]. }
  intros sc s. rewrite triggerGameOver_best. split; [reflexivity | lia].
Qed.

(** ** C2: input while the game is over *)

(** C2, as amended.  While [gameOver] is set, a press changes one cell
    only: [birdV] becomes [JUMP_VELOCITY].  Position, pipes, score, best,
    both lifecycle flags, the interval and the random source are unchanged;
    and in a reachable state with [gameOver] set the interval is cleared, so
    a timer event changes nothing at all. *)
Theorem press_when_game_over (W H : Q) (rand : nat -> Q) (s : state)
    (Hover : gameOver s = true) :
  dispatch W H rand Press s
  = {| running := running s; gameOver := gameOver s; score := score s;
       best := best s; birdY := birdY s; birdV := JUMP_VELOCITY;
       pipes := pipes s; loopRef := loopRef s; draws := draws s |}
  /\ (reachable W H rand s -> dispatch W H rand Timer s = s).
Proof.
  split.
  - unfold dispatch, handle, startIfNeeded, gameLoopEffect. simpl.
    rewrite Hover, andb_false_r, Bool.eqb_reflx. reflexivity.
  - intro R.
    destruct (reachable_coherent W H rand s R) as [(RL & GR & _ & _) _].
    assert (N : loopRef s = None).
    { destruct (loopRef s) eqn:E; [| reflexivity].
      assert (running s = true) by (apply RL; discriminate).
      rewrite (GR Hover) in *. discriminate. }
    unfold dispatch, handle, tick. rewrite N. apply gameLoopEffect_same.
Qed.

Lemma press_when_game_over_witness :
  gameOver Demo.crashed = true
  /\ dispatch Demo.W Demo.H Demo.rnd Press Demo.crashed
     = {| running := running Demo.crashed; gameOver := gameOver Demo.crashed;
          score := score Demo.crashed; best := best Demo.crashed;
          birdY := birdY Demo.crashed; birdV := JUMP_VELOCITY;
          pipes := pipes Demo.crashed; loopRef := loopRef Demo.crashed;
          draws := draws Demo.crashed |}.
Proof.
  assert (G : gameOver Demo.crashed = true) by (vm_compute; reflexivity).
  exact (conj G
    (proj1 (press_when_game_over Demo.W Demo.H Demo.rnd Demo.crashed G))).
Defined.

(** C2 as stated fails: the session [Demo.crashed] is over, with the bird on
    the floor at velocity 24.3; a press leaves the game over and sets the
    velocity to -10.5. *)
Lemma press_when_game_over_sets_velocity :
  reachable Demo.W Demo.H Demo.rnd Demo.crashed
  /\ gameOver Demo.crashed = true
  /\ birdV Demo.crashed == 24.3
  /\ gameOver (dispatch Demo.W Demo.H Demo.rnd Press Demo.crashed) = true
  /\ birdV (dispatch Demo.W Demo.H Demo.rnd Press Demo.crashed) == -10.5
  /\ ~ (birdV (dispatch Demo.W Demo.H Demo.rnd Press Demo.crashed)
        == birdV Demo.crashed).
Proof.
  split.
  - apply run_reachable. apply reach_step. apply reach_mount.
  - evaluated Demo.crashed as E. rewrite E. by_eval.
Qed.

(** ** C9: a screen too low for the pipes *)

Lemma randomTopHeight_empty_range (H : Q) (rand : nat -> Q) (k : nat) :
  unitDraws rand -> maxTop H <= minTop ->
  exists z : Z,
    fst (randomTopHeight H rand k) == inject_Z z
    /\ maxTop H - 1 < inject_Z z /\ inject_Z z <= minTop.
Proof.
  intros U He. rewrite randomTopHeight_eq. simpl fst.
  destruct (U k) as [R0 R1].
  set (d := maxTop H - minTop) in *.
  assert (Hd : d <= 0) by (unfold d; lra).
  assert (P0 : rand k * d <= 0).
  { assert (0 <= rand k * (- d)) by (apply Qmult_le_0_compat; lra).
    setoid_replace (rand k * d) with (- (rand k * - d)) by ring. lra. }
  assert (P1 : d <= rand k * d).
  { assert (0 <= (1 - rand k) * (- d)) by (apply Qmult_le_0_compat; lra).
    setoid_replace (rand k * d) with (d + (1 - rand k) * - d) by ring. lra. }
  pose proof (Qfloor_le (rand k * d)) as F1.
  pose proof (Qlt_floor (rand k * d)) as F2.
  rewrite inject_Z_plus in F2. change (inject_Z 1) with 1 in F2.
  exists (Qfloor (rand k * d) + 60)%Z.
  rewrite inject_Z_plus. change (inject_Z 60) with 60. unfold minTop in *.
  split; [reflexivity |]. unfold d in *. split; lra.
Qed.

(** C9, as amended.  The code has no configuration check.  With draws in
    [0, 1) and an empty range for [randomTopHeight], mounting still yields a
    session with two pipes, a press starts it and installs the interval, the
    next tick integrates the bird, and every value of [randomTopHeight] is
    an integer [z] with [maxTop - 1 < z <= minTop]. *)
Theorem no_configuration_check (W H : Q) (rand : nat -> Q)
    (Hdraws : unitDraws rand) (Hempty : maxTop H <= minTop) :
  length (pipes (mount W H rand)) = 2%nat
  /\ running (dispatch W H rand Press (mount W H rand)) = true
  /\ loopRef (dispatch W H rand Press (mount W H rand))
     = Some (mkInterval 0)
  /\ birdV (dispatch W H rand Timer
              (dispatch W H rand Press (mount W H rand)))
     == JUMP_VELOCITY + GRAVITY
  /\ forall k : nat, exists z : Z,
       fst (randomTopHeight H rand k) == inject_Z z
       /\ maxTop H - 1 < inject_Z z /\ inject_Z z <= minTop.
Proof.
  assert (M : dispatch W H rand Press (mount W H rand)
              = {| running := true; gameOver := false; score := 0;
                   best := 0; birdY := H * 0.45; birdV := JUMP_VELOCITY;
                   pipes := pipes (mount W H rand);
                   loopRef := Some (mkInterval 0);
                   draws := draws (mount W H rand) |}).
  { unfold mount. destruct (initialPipes W H rand 0%nat) as [ps k].
    reflexivity. }
  split.
  { unfold mount, initialPipes, Rnd.bind, Rnd.ret.
    rewrite !randomTopHeight_eq. reflexivity. }
  rewrite M. split; [reflexivity |]. split; [reflexivity |].
  split.
  { unfold dispatch. 
    destruct (gameLoopEffect_cells true
                (handle W H rand Timer
                   {| running := true; gameOver := false; score := 0;
                      best := 0; birdY := H * 0.45; birdV := JUMP_VELOCITY;
                      pipes := pipes (mount W H rand);
                      loopRef := Some (mkInterval 0);
                      draws := draws (mount W H rand) |}))
      as (_ & _ & _ & _ & _ & V & _).
    simpl running. rewrite V. unfold handle, tick. simpl loopRef. cbv iota.
    rewrite tickBody_birdV. reflexivity. }
  intro k. apply randomTopHeight_empty_range; assumption.
Qed.

Lemma no_configuration_check_witness :
  unitDraws Demo.half /\ maxTop Demo.lowH <= minTop
  /\ running (dispatch Demo.W Demo.lowH Demo.half Press
                (mount Demo.W Demo.lowH Demo.half)) = true.
Proof.
  assert (U : unitDraws Demo.half)
    by (intro n; split; [discriminate | reflexivity]).
  assert (E : maxTop Demo.lowH <= minTop) by discriminate.
  exact (conj U (conj E (proj1 (proj2
    (no_configuration_check Demo.W Demo.lowH Demo.half U E))))).
Defined.

(** C9 as stated fails: on a window 200 high the range of
    [randomTopHeight] is [60, 0), which is empty; the session is mounted all
    the same, both pipes get [topHeight = 30], a press sets [running] and
    installs the interval, and the next tick moves the bird and the pipes
    without ending the game. *)
Lemma low_screen_session_runs :
  maxTop Demo.lowH < minTop
  /\ map topHeight (pipes Demo.lowMount) = [30; 30]
  /\ ~ inRange Demo.lowH (mkPipe 500 30 false)
  /\ running Demo.lowStarted = true
  /\ loopRef Demo.lowStarted = Some (mkInterval 0)
  /\ reachesPipes Demo.lowH Demo.lowStarted = true
  /\ birdY (dispatch Demo.W Demo.lowH Demo.half Timer Demo.lowStarted)
     == 80.1
  /\ map (fun p => Qred (x p))
       (pipes (dispatch Demo.W Demo.lowH Demo.half Timer Demo.lowStarted))
     = [2484 # 5; 3684 # 5]
  /\ gameOver (dispatch Demo.W Demo.lowH Demo.half Timer Demo.lowStarted)
     = false.
Proof.
  split; [reflexivity |].
  split; [vm_compute; reflexivity |].
  split.
  { unfold inRange. simpl. intros [L _]. revert L. vm_compute.
    intro L. apply L. reflexivity. }
  by_eval.
Qed.

(** * Further properties of the component *)

(** ** The three screens *)

Lemma coherent_idle_interval (s : state) :
  coherent s -> running s = false -> loopRef s = None.
Proof.
  intros (RL & _) R. destruct (loopRef s) eqn:E; [| reflexivity].
  assert (running s = true) by (apply RL; discriminate). congruence.
Qed.

(** X1.  In every reachable state exactly one of three screens is shown: the
    game itself, with the interval installed; the start overlay, with no
    interval and score 0; or the game-over overlay, with no interval. *)
Theorem one_screen_at_a_time (W H : Q) (rand : nat -> Q) (s : state)
    (Hreach : reachable W H rand s) :
  (running s = true /\ showStart s = false /\ showGameOver s = false
   /\ loopRef s <> None)
  \/ (running s = false /\ showStart s = true /\ showGameOver s = false
      /\ loopRef s = None /\ score s = 0%Z)
  \/ (running s = false /\ showStart s = false /\ showGameOver s = true
      /\ loopRef s = None).
Proof.
  destruct (reachable_coherent W H rand s Hreach) as [C _].
  pose proof (coherent_idle_interval s C) as Off.
  destruct C as (RL & GR & Idle & _).
  unfold showStart, showGameOver.
  destruct (running s) eqn:R, (gameOver s) eqn:G; simpl.
  - specialize (GR eq_refl). discriminate.
  - left. repeat split; try reflexivity. apply RL. reflexivity.
  - right. right. repeat split; try reflexivity. apply Off. reflexivity.
  - right. left. repeat split; try reflexivity; auto.
Qed.

Lemma one_screen_at_a_time_witness :
  reachable Demo.W Demo.H Demo.rnd Demo.started
  /\ ((running Demo.started = true /\ showStart Demo.started = false
       /\ showGameOver Demo.started = false
       /\ loopRef Demo.started <> None)
      \/ (running Demo.started = false /\ showStart Demo.started = true
          /\ showGameOver Demo.started = false
          /\ loopRef Demo.started = None /\ score Demo.started = 0%Z)
      \/ (running Demo.started = false /\ showStart Demo.started = false
          /\ showGameOver Demo.started = true
          /\ loopRef Demo.started = None)).
Proof.
  assert (R : reachable Demo.W Demo.H Demo.rnd Demo.started)
    by (apply reach_step; apply reach_mount).
  exact (conj R
    (one_screen_at_a_time Demo.W Demo.H Demo.rnd Demo.started R)).
Defined.

(** The same three cases, on the cells themselves. *)
Lemma one_screen_cases (W H : Q) (rand : nat -> Q) (s : state) :
  reachable W H rand s ->
  (running s = true /\ gameOver s = false /\ loopRef s <> None)
  \/ (running s = false /\ gameOver s = false /\ loopRef s = None
      /\ score s = 0%Z)
  \/ (running s = false /\ gameOver s = true /\ loopRef s = None).
Proof.
  intro Hreach.
  destruct (reachable_coherent W H rand s Hreach) as [C _].
  pose proof (coherent_idle_interval s C) as Off.
  destruct C as (RL & GR & Idle & _).
  destruct (running s) eqn:R, (gameOver s) eqn:G.
  - specialize (GR eq_refl). discriminate.
  - left. repeat split. apply RL. reflexivity.
  - right. right. repeat split. apply Off. reflexivity.
  - right. left. repeat split; auto.
Qed.

(** ** The transitions between the screens *)

Lemma dispatch_running (W H : Q) (rand : nat -> Q) (e : event) (s : state) :
  running (dispatch W H rand e s) = running (handle W H rand e s).
Proof. unfold dispatch. apply gameLoopEffect_cells. Qed.

Lemma dispatch_score (W H : Q) (rand : nat -> Q) (e : event) (s : state) :
  score (dispatch W H rand e s) = score (handle W H rand e s).
Proof. unfold dispatch. apply gameLoopEffect_cells. Qed.

Lemma dispatch_birdY (W H : Q) (rand : nat -> Q) (e : event) (s : state) :
  birdY (dispatch W H rand e s) = birdY (handle W H rand e s).
Proof. unfold dispatch. apply gameLoopEffect_cells. Qed.

Lemma dispatch_birdV (W H : Q) (rand : nat -> Q) (e : event) (s : state) :
  birdV (dispatch W H rand e s) = birdV (handle W H rand e s).
Proof. unfold dispatch. apply gameLoopEffect_cells. Qed.

Lemma dispatch_draws (W H : Q) (rand : nat -> Q) (e : event) (s : state) :
  draws (dispatch W H rand e s) = draws (handle W H rand e s).
Proof. unfold dispatch. apply gameLoopEffect_cells. Qed.

(** X2.  From a reachable state: the start overlay is left only by a press,
    which starts the game with the jump velocity and a fresh interval; a
    running game stays running under a press, returns to the start overlay
    under the retry button, and under a timer event either goes on or is
    over; the game-over overlay is left only by the retry button, which
    leads to the start overlay.  So the game never goes from the start
    overlay to game over, nor from game over to running, in one event. *)
Theorem screen_transitions (W H : Q) (rand : nat -> Q) (s : state)
    (e : event) (Hreach : reachable W H rand s) :
  (showStart s = true ->
     (e = Press ->
        running (dispatch W H rand e s) = true
        /\ gameOver (dispatch W H rand e s) = false
        /\ birdV (dispatch W H rand e s) = JUMP_VELOCITY
        /\ loopRef (dispatch W H rand e s) = Some (mkInterval 0))
     /\ (e <> Press -> showStart (dispatch W H rand e s) = true))
  /\ (running s = true ->
      (e = Press ->
         running (dispatch W H rand e s) = true
         /\ gameOver (dispatch W H rand e s) = false)
      /\ (e = Retry -> showStart (dispatch W H rand e s) = true)
      /\ (e = Timer ->
          (running (dispatch W H rand e s) = true
           /\ gameOver (dispatch W H rand e s) = false)
          \/ (running (dispatch W H rand e s) = false
              /\ gameOver (dispatch W H rand e s) = true)))
  /\ (showGameOver s = true ->
      (e = Retry -> showStart (dispatch W H rand e s) = true)
      /\ (e <> Retry ->
          showGameOver (dispatch W H rand e s) = true
          /\ running (dispatch W H rand e s) = false)).
Proof.
  destruct (one_screen_cases W H rand s Hreach)
    as [(R & G & L) | [(R & G & L & S) | (R & G & L)]];
    unfold showStart, showGameOver;
    rewrite ?dispatch_running, ?dispatch_gameOver, ?dispatch_birdV, R, G;
    simpl; (split; [| split]); try discriminate; intros _.
  - (* running *)
    split; [| split]; intros ->; unfold handle.
    + unfold startIfNeeded. simpl. rewrite R, G. split; reflexivity.
    + destruct (resetGame_cells W H rand s) as (R' & G' & _).
      rewrite R', G'. reflexivity.
    + unfold tick. destruct (loopRef s) as [i |]; [| congruence].
      destruct (tickBody_lifecycle W H rand (closure_score i) s)
        as [(G' & R' & _) | (G' & R' & _)]; rewrite R', G'.
      * right. split; reflexivity.
      * left. split; assumption.
  - (* start overlay *)
    split.
    + intros ->. unfold dispatch, handle, gameLoopEffect, startIfNeeded.
      simpl. rewrite R, G, S. simpl. repeat split; reflexivity.
    + intro NP. destruct e; [congruence | |]; unfold handle.
      * destruct (resetGame_cells W H rand s) as (R' & G' & _).
        rewrite R', G'. reflexivity.
      * unfold tick. rewrite L, R, G. reflexivity.
  - (* game over *)
    split.
    + intros ->. unfold handle.
      destruct (resetGame_cells W H rand s) as (R' & G' & _).
      rewrite R', G'. reflexivity.
    + intro NR. destruct e; [| congruence |]; unfold handle.
      * unfold startIfNeeded. simpl. rewrite R, G. split; reflexivity.
      * unfold tick. rewrite L, R, G. split; reflexivity.
Qed.

Lemma screen_transitions_witness :
  reachable Demo.W Demo.H Demo.rnd (mount Demo.W Demo.H Demo.rnd)
  /\ showStart (mount Demo.W Demo.H Demo.rnd) = true
  /\ running (dispatch Demo.W Demo.H Demo.rnd Press
                (mount Demo.W Demo.H Demo.rnd)) = true.
Proof.
  assert (R : reachable Demo.W Demo.H Demo.rnd (mount Demo.W Demo.H Demo.rnd))
    by apply reach_mount.
  assert (S : showStart (mount Demo.W Demo.H Demo.rnd) = true)
    by reflexivity.
  exact (conj R (conj S (proj1 (proj1
    (proj1 (screen_transitions Demo.W Demo.H Demo.rnd _ Press R) S)
    eq_refl)))).
Defined.

(** ** Retry is a fresh mount *)

Lemma initialPipes_shift (W H : Q) (rand : nat -> Q) (k : nat) :
  fst (initialPipes W H rand k)
  = fst (initialPipes W H (fun n => rand (k + n)%nat) 0%nat)
  /\ snd (initialPipes W H rand k)
     = (k + snd (initialPipes W H (fun n => rand (k + n)%nat) 0%nat))%nat.
Proof.
  unfold initialPipes, Rnd.bind, Rnd.ret. rewrite !randomTopHeight_eq.
  simpl fst. simpl snd.
  replace (k + 0)%nat with k by lia.
  replace (k + 1)%nat with (S k) by lia.
  split; [reflexivity | lia].
Qed.

(** X3.  From any reachable state, the retry button leads to the state of a
    fresh mount that reads the random source from where the session left it:
    same bird, same pipe layout, score 0, no interval, whatever was going
    on.  Only the best score is carried over. *)
Theorem retry_is_fresh_mount (W H : Q) (rand : nat -> Q) (s : state)
    (Hreach : reachable W H rand s) :
  dispatch W H rand Retry s
  = carriedOver s (mount W H (fun n => rand (draws s + n)%nat)).
Proof.
  destruct (one_screen_cases W H rand s Hreach)
    as [(R & G & L) | [(R & G & L & S) | (R & G & L)]];
    destruct (initialPipes_shift W H rand (draws s)) as [P D];
    unfold dispatch, handle, resetGame, mount, carriedOver, gameLoopEffect;
    destruct (initialPipes W H rand (draws s)) as [ps k];
    destruct (initialPipes W H (fun n => rand (draws s + n)%nat) 0%nat)
      as [ps' k'];
    simpl in *; rewrite R; simpl; subst; try rewrite L; reflexivity.
Qed.

Lemma retry_is_fresh_mount_witness :
  reachable Demo.W Demo.H Demo.rnd Demo.started
  /\ dispatch Demo.W Demo.H Demo.rnd Retry Demo.started
     = carriedOver Demo.started
         (mount Demo.W Demo.H
            (fun n => Demo.rnd (draws Demo.started + n)%nat)).
Proof.
  assert (R : reachable Demo.W Demo.H Demo.rnd Demo.started)
    by (apply reach_step; apply reach_mount).
  exact (conj R
    (retry_is_fresh_mount Demo.W Demo.H Demo.rnd Demo.started R)).
Defined.

(** ** A press is an overwrite *)

(** X4.  In any state a press sets the velocity to [JUMP_VELOCITY] whatever it
    was, leaves position, pipes, score, best and the game-over flag alone,
    and a second press straight after the first changes nothing more. *)
Theorem press_overwrites (W H : Q) (rand : nat -> Q) (s : state) :
  birdV (dispatch W H rand Press s) = JUMP_VELOCITY
  /\ birdY (dispatch W H rand Press s) = birdY s
  /\ pipes (dispatch W H rand Press s) = pipes s
  /\ score (dispatch W H rand Press s) = score s
  /\ best (dispatch W H rand Press s) = best s
  /\ gameOver (dispatch W H rand Press s) = gameOver s
  /\ dispatch W H rand Press (dispatch W H rand Press s)
     = dispatch W H rand Press s.
Proof.
  rewrite dispatch_birdV, dispatch_birdY, dispatch_pipes, dispatch_score,
    dispatch_best, dispatch_gameOver.
  repeat (split; [reflexivity |]).
  unfold dispatch, handle, startIfNeeded, gameLoopEffect.
  destruct s as [r g sc b y v ps l d]. simpl.
  destruct r, g; reflexivity.
Qed.

(** ** A finished game is frozen *)

Lemma sameButVelocity_refl (s : state) : sameButVelocity s s.
Proof. repeat split. Qed.

Lemma frozen_step (W H : Q) (rand : nat -> Q) (e : event) (s : state) :
  gameOver s = true -> running s = false -> loopRef s = None ->
  e <> Retry ->
  sameButVelocity s (dispatch W H rand e s).
Proof.
  intros G R L NR. destruct e; [| congruence |].
  - unfold dispatch, handle, startIfNeeded, gameLoopEffect. simpl.
    rewrite G, R. simpl. repeat split; simpl; congruence.
  - unfold dispatch, handle, tick. rewrite L, gameLoopEffect_same.
    apply sameButVelocity_refl.
Qed.

(** X5.  Once the game is over, no sequence of presses and timer events changes
    the position, the pipes, the score, the best score, the flags or the
    random source: the session stays as the collision left it until the
    retry button is used. *)
Theorem game_over_is_frozen (W H : Q) (rand : nat -> Q) (es : list event)
    (s : state) (Hreach : reachable W H rand s)
    (Hover : gameOver s = true) (Hes : ~ In Retry es) :
  sameButVelocity s (run W H rand es s).
Proof.
  destruct (one_screen_cases W H rand s Hreach)
    as [(R & G & L) | [(R & G & L & S) | (R & G & L)]]; try congruence.
  clear Hreach G. revert s Hover R L.
  induction es as [| e rest IH]; intros s G R L; simpl.
  - apply sameButVelocity_refl.
  - assert (NR : e <> Retry) by (intro; subst; apply Hes; left; reflexivity).
    assert (Hrest : ~ In Retry rest) by (intro; apply Hes; right; assumption).
    destruct (frozen_step W H rand e s G R L NR)
      as (R1 & G1 & S1 & B1 & Y1 & P1 & L1 & D1).
    destruct (IH Hrest (dispatch W H rand e s))
      as (R2 & G2 & S2 & B2 & Y2 & P2 & L2 & D2); try congruence.
    repeat split; congruence.
Qed.

Lemma game_over_is_frozen_witness :
  reachable Demo.W Demo.H Demo.rnd Demo.crashed
  /\ gameOver Demo.crashed = true
  /\ ~ In Retry [Press; Timer; Press]
  /\ sameButVelocity Demo.crashed
       (run Demo.W Demo.H Demo.rnd [Press; Timer; Press] Demo.crashed).
Proof.
  assert (R : reachable Demo.W Demo.H Demo.rnd Demo.crashed)
    by (apply run_reachable; apply reach_step; apply reach_mount).
  assert (G : gameOver Demo.crashed = true) by (vm_compute; reflexivity).
  assert (N : ~ In Retry [Press; Timer; Press])
    by (simpl; intros [K | [K | [K | K]]]; try discriminate K; exact K).
  exact (conj R (conj G (conj N
    (game_over_is_frozen Demo.W Demo.H Demo.rnd _ Demo.crashed R G N)))).
Defined.

(** ** Invariants of the running game *)

Section SessionInvariants.

Variables W H : Q.
Variable rand : nat -> Q.

Lemma recycle_Forall (P Q : pipe -> Prop) (ps : list pipe) (k : nat) :
  (forall p j, Q p -> P (fst (recyclePipe W H p rand j))) ->
  Forall Q ps -> Forall P (fst (recycle W H ps rand k)).
Proof.
  intro Step. revert k. induction ps as [| p rest IH]; intros k F.
  - constructor.
  - rewrite recycle_cons. simpl. inversion F as [| ? ? Hp Hrest]; subst.
    constructor; [apply Step; assumption | apply IH; assumption].
Qed.

Lemma markScored_pos (p : pipe) : x (markScored W p) = x p.
Proof. unfold markScored. destruct (passes W p); reflexivity. Qed.

Lemma initialPipes_length (k : nat) :
  length (fst (initialPipes W H rand k)) = 2%nat.
Proof.
  unfold initialPipes, Rnd.bind, Rnd.ret. rewrite !randomTopHeight_eq.
  reflexivity.
Qed.

Lemma tick_pipes_length (s : state) :
  length (pipes (tick W H rand s)) = length (pipes s).
Proof.
  destruct (reachesPipes H s) eqn:RP.
  - rewrite tick_pipes_reached by assumption.
    unfold advance. rewrite length_map, recycle_length, length_map.
    reflexivity.
  - rewrite tick_pipes_skipped by assumption. reflexivity.
Qed.

Lemma reachable_two_pipes (s : state) :
  reachable W H rand s -> length (pipes s) = 2%nat.
Proof.
  induction 1 as [| s e R IH].
  - unfold mount. pose proof (initialPipes_length 0%nat) as L.
    destruct (initialPipes W H rand 0%nat). exact L.
  - rewrite dispatch_pipes. destruct e; unfold handle.
    + exact IH.
    + unfold resetGame. pose proof (initialPipes_length (draws s)) as L.
      destruct (initialPipes W H rand (draws s)). exact L.
    + rewrite tick_pipes_length. exact IH.
Qed.

Lemma tick_score_bounds (s : state) :
  (score s <= score (tick W H rand s)
   <= score s + Z.of_nat (length (pipes s)))%Z.
Proof.
  destruct (reachesPipes H s) eqn:RP.
  - rewrite tick_score_reached by assumption.
    pose proof (filter_length_le (passes W)
                  (fst (advance W H (pipes s) rand (draws s)))) as F.
    unfold advance in F at 2. rewrite recycle_length, length_map in F. lia.
  - rewrite tick_score_skipped by assumption. lia.
Qed.

Lemma reachable_score_nonneg (s : state) :
  reachable W H rand s -> (0 <= score s)%Z.
Proof.
  induction 1 as [| s e R IH].
  - unfold mount. destruct (initialPipes W H rand 0%nat). simpl. lia.
  - rewrite dispatch_score. destruct e; unfold handle.
    + exact IH.
    + destruct (resetGame_cells W H rand s) as (_ & _ & S & _).
      rewrite S. lia.
    + pose proof (tick_score_bounds s). lia.
Qed.

Lemma ceiled_nonneg (s : state) : 0 <= ceiled s.
Proof.
  unfold ceiled. destruct (Qltb (integrated s) 0) eqn:E.
  - lra.
  - apply Qltb_ge. exact E.
Qed.

Lemma tickBody_on_screen (sc : Z) (s : state) :
  BIRD_SIZE <= H ->
  0 <= birdY (tickBody W H rand sc s)
  /\ birdY (tickBody W H rand sc s) + BIRD_SIZE <= H.
Proof.
  intro Hs. destruct (Qlt_le_dec H (ceiled s + BIRD_SIZE)) as [F | F].
  - rewrite tickBody_floor by assumption. simpl. split; lra.
  - rewrite tickBody_pipes by assumption. cbv zeta.
    pose proof (ceiled_nonneg s).
    match goal with |- context [collided ?r] => destruct (collided r) end;
      simpl; split; assumption.
Qed.

End SessionInvariants.

(** X6.  In every reachable state the pipe array has exactly two entries. *)
Theorem always_two_pipes (W H : Q) (rand : nat -> Q) (s : state)
    (Hreach : reachable W H rand s) :
  length (pipes s) = 2%nat.
Proof. apply (reachable_two_pipes W H rand). exact Hreach. Qed.

Lemma always_two_pipes_witness :
  reachable Demo.W Demo.H Demo.rnd Demo.started
  /\ length (pipes Demo.started) = 2%nat.
Proof.
  assert (R : reachable Demo.W Demo.H Demo.rnd Demo.started)
    by (apply reach_step; apply reach_mount).
  exact (conj R (always_two_pipes Demo.W Demo.H Demo.rnd Demo.started R)).
Defined.

(** X7.  In every reachable state the score is not negative; a press leaves it
    unchanged, a timer event raises it by 0, 1 or 2, and only the retry
    button brings it back to 0. *)
Theorem score_counts_up (W H : Q) (rand : nat -> Q) (s : state)
    (Hreach : reachable W H rand s) :
  (0 <= score s)%Z
  /\ score (dispatch W H rand Press s) = score s
  /\ (score s <= score (dispatch W H rand Timer s) <= score s + 2)%Z
  /\ score (dispatch W H rand Retry s) = 0%Z.
Proof.
  split; [apply (reachable_score_nonneg W H rand); exact Hreach |].
  rewrite !dispatch_score. split; [reflexivity |]. split.
  - pose proof (tick_score_bounds W H rand s) as B.
    rewrite (reachable_two_pipes W H rand s Hreach) in B.
    unfold handle. simpl Z.of_nat in B. exact B.
  - unfold handle. apply resetGame_cells.
Qed.

Lemma score_counts_up_witness :
  reachable Demo.W Demo.H Demo.rnd Demo.started
  /\ (score Demo.started
      <= score (dispatch Demo.W Demo.H Demo.rnd Timer Demo.started)
      <= score Demo.started + 2)%Z.
Proof.
  assert (R : reachable Demo.W Demo.H Demo.rnd Demo.started)
    by (apply reach_step; apply reach_mount).
  exact (conj R (proj1 (proj2 (proj2
    (score_counts_up Demo.W Demo.H Demo.rnd Demo.started R))))).
Defined.

(** X8.  On a screen where the start position leaves room for the bird
    ([BIRD_SIZE <= 0.55 * SCREEN_HEIGHT]), the bird is entirely on screen in
    every reachable state. *)
Theorem bird_stays_on_screen (W H : Q) (rand : nat -> Q) (s : state)
    (Hscreen : BIRD_SIZE <= H * 0.55)
    (Hreach : reachable W H rand s) :
  0 <= birdY s /\ birdY s + BIRD_SIZE <= H.
Proof.
  assert (Hs : BIRD_SIZE <= H) by (unfold BIRD_SIZE in *; lra).
  induction Hreach as [| s e R IH].
  - unfold mount. destruct (initialPipes W H rand 0%nat). simpl.
    unfold BIRD_SIZE in *. split; lra.
  - rewrite dispatch_birdY. destruct e; unfold handle.
    + exact IH.
    + unfold resetGame. destruct (initialPipes W H rand (draws s)). simpl.
      unfold BIRD_SIZE in *. split; lra.
    + unfold tick. destruct (loopRef s) as [i |]; [| exact IH].
      apply tickBody_on_screen. exact Hs.
Qed.

Lemma bird_stays_on_screen_witness :
  BIRD_SIZE <= Demo.H * 0.55
  /\ reachable Demo.W Demo.H Demo.rnd Demo.nearCeiling
  /\ 0 <= birdY Demo.nearCeiling
  /\ birdY Demo.nearCeiling + BIRD_SIZE <= Demo.H.
Proof.
  assert (S : BIRD_SIZE <= Demo.H * 0.55) by (vm_compute; discriminate).
  assert (R : reachable Demo.W Demo.H Demo.rnd Demo.nearCeiling)
    by (apply run_reachable; apply reach_mount).
  exact (conj S (conj R
    (bird_stays_on_screen Demo.W Demo.H Demo.rnd Demo.nearCeiling S R))).
Defined.

(** X9.  With draws in [0, 1) and a screen of non-negative width, no pipe of a
    reachable state lies entirely left of the screen or further right than
    [1.6 * SCREEN_WIDTH + 180]. *)
Theorem pipes_stay_in_band (W H : Q) (rand : nat -> Q) (s : state)
    (Hdraws : unitDraws rand) (Hwidth : 0 <= W)
    (Hreach : reachable W H rand s) :
  forall p : pipe, In p (pipes s) ->
    0 <= x p + PIPE_WIDTH /\ x p <= W * 1.6 + 180.
Proof.
  apply Forall_forall.
  assert (Init : forall k,
             Forall (fun p => 0 <= x p + PIPE_WIDTH /\ x p <= W * 1.6 + 180)
               (fst (initialPipes W H rand k))).
  { intro k. unfold initialPipes, Rnd.bind, Rnd.ret.
    rewrite !randomTopHeight_eq. simpl fst.
    repeat (apply Forall_cons || apply Forall_nil);
      simpl; unfold PIPE_WIDTH; split; lra. }
  induction Hreach as [| s e R IH].
  - unfold mount. specialize (Init 0%nat).
    destruct (initialPipes W H rand 0%nat). exact Init.
  - rewrite dispatch_pipes. destruct e; unfold handle.
    + exact IH.
    + unfold resetGame. specialize (Init (draws s)).
      destruct (initialPipes W H rand (draws s)). exact Init.
    + destruct (reachesPipes H s) eqn:RP.
      * rewrite tick_pipes_reached by assumption.
        apply Forall_map. unfold advance.
        apply (recycle_Forall W H rand
                 (fun p => 0 <= x (markScored W p) + PIPE_WIDTH
                           /\ x (markScored W p) <= W * 1.6 + 180)
                 (fun p => x p <= W * 1.6 + 180)).
        -- intros p j Hp. rewrite markScored_pos.
           destruct (Qlt_le_dec (x p + PIPE_WIDTH) 0) as [L | L].
           ++ rewrite recyclePipe_out by assumption. simpl.
              destruct (Hdraws j). unfold PIPE_WIDTH. split; lra.
           ++ rewrite recyclePipe_in by assumption. split; assumption.
        -- apply Forall_map. eapply Forall_impl; [| exact IH].
           intros p [_ Hp]. simpl. unfold PIPE_SPEED. lra.
      * rewrite tick_pipes_skipped by assumption. exact IH.
Qed.

Lemma pipes_stay_in_band_witness :
  unitDraws Demo.rnd /\ 0 <= Demo.W
  /\ reachable Demo.W Demo.H Demo.rnd Demo.started
  /\ forall p : pipe, In p (pipes Demo.started) ->
       0 <= x p + PIPE_WIDTH /\ x p <= Demo.W * 1.6 + 180.
Proof.
  assert (U : unitDraws Demo.rnd)
    by (intro n; split; [discriminate | reflexivity]).
  assert (P : 0 <= Demo.W) by discriminate.
  assert (R : reachable Demo.W Demo.H Demo.rnd Demo.started)
    by (apply reach_step; apply reach_mount).
  exact (conj U (conj P (conj R
    (pipes_stay_in_band Demo.W Demo.H Demo.rnd Demo.started U P R)))).
Defined.

(** ** What is drawn is what collides *)

(** X10.  The regions covered by the two drawn blocks of a pipe are the two
    rectangles the collision test uses for it, the region of the drawn bird
    is the bird's collision rectangle, and the two blocks and the gap add up
    to the screen height. *)
Theorem drawn_boxes_are_hit_boxes (W H : Q) (p : pipe) (s : state) :
  sameRect (viewRect (fst (renderPipe H p))) (topPipe p)
  /\ sameRect (viewRect (snd (renderPipe H p))) (bottomPipe H p)
  /\ sameRect (viewRect (renderBird W s)) (birdRect W (birdY s))
  /\ height (fst (renderPipe H p)) + PIPE_GAP
     + height (snd (renderPipe H p)) == H.
Proof.
  unfold sameRect, viewRect, renderPipe, renderBird, topPipe, bottomPipe,
    birdRect. simpl. repeat split; ring.
Qed.

(** X11.  With draws in [0, 1) and a non-empty range for
    [randomTopHeight], every rectangle the collision pass builds in a
    reachable state has
    [x1 <= x2] and [y1 <= y2], the upper block of every pipe is at least 60
    high and the lower block at least 30. *)
Theorem hit_boxes_well_formed (W H : Q) (rand : nat -> Q) (s : state)
    (Hdraws : unitDraws rand) (Hrange : minTop < maxTop H)
    (Hreach : reachable W H rand s) :
  (forall y : Q, wellFormed (birdRect W y))
  /\ forall p : pipe, In p (pipes s) ->
       wellFormed (topPipe p) /\ wellFormed (bottomPipe H p)
       /\ 60 <= height (fst (renderPipe H p))
       /\ 30 <= height (snd (renderPipe H p)).
Proof.
  split.
  - intro y. unfold wellFormed, birdRect, BIRD_SIZE. simpl. split; lra.
  - intros p Hin.
    pose proof (reachable_inRange W H rand Hdraws Hrange s Hreach) as F.
    rewrite Forall_forall in F. destruct (F p Hin) as [Lo Hi].
    unfold wellFormed, topPipe, bottomPipe, renderPipe, minTop, maxTop,
      PIPE_WIDTH, PIPE_GAP in *.
    simpl. repeat split; lra.
Qed.

Lemma hit_boxes_well_formed_witness :
  unitDraws Demo.rnd /\ minTop < maxTop Demo.H
  /\ reachable Demo.W Demo.H Demo.rnd Demo.started
  /\ forall p : pipe, In p (pipes Demo.started) ->
       wellFormed (topPipe p) /\ wellFormed (bottomPipe Demo.H p)
       /\ 60 <= height (fst (renderPipe Demo.H p))
       /\ 30 <= height (snd (renderPipe Demo.H p)).
Proof.
  assert (U : unitDraws Demo.rnd)
    by (intro n; split; [discriminate | reflexivity]).
  assert (N : minTop < maxTop Demo.H) by reflexivity.
  assert (R : reachable Demo.W Demo.H Demo.rnd Demo.started)
    by (apply reach_step; apply reach_mount).
  exact (conj U (conj N (conj R (proj2
    (hit_boxes_well_formed Demo.W Demo.H Demo.rnd Demo.started U N R))))).
Defined.

(** ** When a pipe is hit *)

Lemma intersects_iff (r s : rect) :
  intersects r s = true <->
  x1 s <= x2 r /\ x1 r <= x2 s /\ y1 s <= y2 r /\ y1 r <= y2 s.
Proof.
  unfold intersects, Qgtb. rewrite negb_true_iff, !orb_false_iff, !Qltb_ge.
  tauto.
Qed.

(** X12.  For a bird that is on screen, a pipe is hit exactly when the bird and
    the pipe overlap horizontally (touching included) and the bird is not
    strictly inside the gap: its top is at or above the lower edge of the
    upper block, or its bottom at or below the upper edge of the lower
    block. *)
Theorem hit_means_outside_gap (W H : Q) (y : Q) (p : pipe)
    (Htop : 0 <= y) (Hbottom : y + BIRD_SIZE <= H) :
  hits W H y p = true <->
  (x p <= BIRD_X W + BIRD_SIZE /\ BIRD_X W <= x p + PIPE_WIDTH)
  /\ (y <= topHeight p \/ topHeight p + PIPE_GAP <= y + BIRD_SIZE).
Proof.
  unfold hits. rewrite orb_true_iff, !intersects_iff.
  unfold birdRect, topPipe, bottomPipe, BIRD_SIZE in *. simpl. split.
  - intros [(A & B & C & D) | (A & B & C & D)]; repeat split; auto.
  - intros [[A B] [C | C]]; [left | right]; repeat split; auto; lra.
Qed.

Lemma hit_means_outside_gap_witness :
  0 <= 100 /\ 100 + BIRD_SIZE <= Demo.H
  /\ (hits Demo.W Demo.H 100 (mkPipe 40 250 false) = true <->
      (x (mkPipe 40 250 false) <= BIRD_X Demo.W + BIRD_SIZE
       /\ BIRD_X Demo.W <= x (mkPipe 40 250 false) + PIPE_WIDTH)
      /\ (100 <= topHeight (mkPipe 40 250 false)
          \/ topHeight (mkPipe 40 250 false) + PIPE_GAP
             <= 100 + BIRD_SIZE)).
Proof.
  assert (A : 0 <= 100) by discriminate.
  assert (B : 100 + BIRD_SIZE <= Demo.H) by discriminate.
  exact (conj A (conj B
    (hit_means_outside_gap Demo.W Demo.H 100 (mkPipe 40 250 false) A B))).
Defined.

(** ** When a tick ends the game *)

(** X13.  A tick taken while the game is not over ends it exactly when the bird,
    after the ceiling check, reaches below the screen, or some pipe of the
    advanced array is hit at the bird's new height; and a tick that ends the
    game stops the interval and clears [running]. *)
Theorem tick_ends_game_iff (W H : Q) (rand : nat -> Q) (s : state)
    (i : interval) (Hloop : loopRef s = Some i)
    (Hplaying : gameOver s = false) :
  (gameOver (tick W H rand s) = true <->
     H < ceiled s + BIRD_SIZE
     \/ (ceiled s + BIRD_SIZE <= H
         /\ existsb (hits W H (ceiled s))
              (fst (advance W H (pipes s) rand (draws s))) = true))
  /\ (gameOver (tick W H rand s) = true ->
      running (tick W H rand s) = false
      /\ loopRef (tick W H rand s) = None).
Proof.
  split.
  - destruct (Qlt_le_dec H (ceiled s + BIRD_SIZE)) as [F | F].
    + unfold tick. rewrite Hloop, tickBody_floor by assumption. simpl.
      split; [intros _; left; exact F | reflexivity].
    + assert (RP : reachesPipes H s = true).
      { unfold reachesPipes. rewrite Hloop. apply negb_true_iff.
        apply Qgtb_le. exact F. }
      rewrite tick_gameOver_reached, Hplaying by assumption. simpl. split.
      * intro E. right. split; assumption.
      * intros [K | [_ E]]; [lra | exact E].
  - intro G. unfold tick in *. rewrite Hloop in *.
    destruct (tickBody_lifecycle W H rand (closure_score i) s)
      as [(_ & R & L & _) | (G' & _)]; [split; assumption | congruence].
Qed.

Lemma tick_ends_game_iff_witness :
  loopRef Demo.grazing = Some (mkInterval 0)
  /\ gameOver Demo.grazing = false
  /\ gameOver (tick Demo.W Demo.H Demo.rnd Demo.grazing) = true.
Proof.
  assert (L : loopRef Demo.grazing = Some (mkInterval 0)) by reflexivity.
  assert (G : gameOver Demo.grazing = false) by reflexivity.
  assert (F : ceiled Demo.grazing + BIRD_SIZE <= Demo.H)
    by (vm_compute; discriminate).
  assert (C : existsb (hits Demo.W Demo.H (ceiled Demo.grazing))
                (fst (advance Demo.W Demo.H (pipes Demo.grazing)
                        Demo.rnd (draws Demo.grazing))) = true)
    by (vm_compute; reflexivity).
  exact (conj L (conj G
    (proj2 (proj1
       (tick_ends_game_iff Demo.W Demo.H Demo.rnd Demo.grazing _ L G))
       (or_intror (conj F C))))).
Defined.

(** ** Free flight *)

Section Flight.

Variables W H : Q.
Variable rand : nat -> Q.




End Flight.





(** ** The use of the random source *)

Section RandomUse.

Variables W H : Q.

Lemma recycle_draws (rand : nat -> Q) (ps : list pipe) (k : nat) :
  snd (recycle W H ps rand k) = (k + 2 * length (leaving ps))%nat.
Proof.
  revert k. induction ps as [| p rest IH]; intro k.
  - simpl. lia.
  - rewrite recycle_cons. simpl snd. rewrite IH. unfold leaving. simpl.
    destruct (Qltb (x p + PIPE_WIDTH) 0) eqn:E.
    + rewrite recyclePipe_out by (apply Qltb_lt; exact E). simpl. lia.
    + rewrite recyclePipe_in by (apply Qltb_ge; exact E). simpl. lia.
Qed.

Lemma recycle_quiet (rand : nat -> Q) (ps : list pipe) (k : nat) :
  leaving ps = [] -> recycle W H ps rand k = (ps, k).
Proof.
  revert k. induction ps as [| p rest IH]; intros k Q.
  - reflexivity.
  - rewrite recycle_cons. unfold leaving in Q. simpl in Q.
    destruct (Qltb (x p + PIPE_WIDTH) 0) eqn:E; [discriminate |].
    rewrite recyclePipe_in by (apply Qltb_ge; exact E). simpl.
    rewrite IH by exact Q. reflexivity.
Qed.

Lemma tick_draws_reached (rand : nat -> Q) (s : state) :
  reachesPipes H s = true ->
  draws (tick W H rand s)
  = snd (advance W H (pipes s) rand (draws s)).
Proof.
  unfold reachesPipes, tick. destruct (loopRef s) as [i |]; [| discriminate].
  rewrite negb_true_iff, Qgtb_le. intro F.
  rewrite tickBody_pipes by assumption. cbv zeta.
  match goal with |- context [collided ?r] => destruct (collided r) end;
    reflexivity.
Qed.

Lemma tick_draws_skipped (rand : nat -> Q) (s : state) :
  reachesPipes H s = false -> draws (tick W H rand s) = draws s.
Proof.
  unfold reachesPipes, tick. destruct (loopRef s) as [i |]; [| reflexivity].
  rewrite negb_false_iff, Qgtb_lt. intro F.
  rewrite tickBody_floor by assumption. reflexivity.
Qed.

End RandomUse.

(** X16.  A tick calls [Math.random] exactly twice for every pipe that
    leaves the screen in it, and not at all when it stops at the floor check
    or when no interval is installed; a press calls it never, and mounting
    and the retry button twice each. *)
Theorem random_calls_per_event (W H : Q) (rand : nat -> Q) (s : state) :
  draws (dispatch W H rand Timer s)
  = (draws s
     + (if reachesPipes H s
        then 2 * length (leaving (map movePipe (pipes s)))
        else 0))%nat
  /\ draws (dispatch W H rand Press s) = draws s
  /\ draws (dispatch W H rand Retry s) = (draws s + 2)%nat
  /\ draws (mount W H rand) = 2%nat.
Proof.
  rewrite !dispatch_draws. unfold handle. split; [| split; [| split]].
  - destruct (reachesPipes H s) eqn:RP.
    + rewrite tick_draws_reached by assumption.
      unfold advance. apply recycle_draws.
    + rewrite tick_draws_skipped by assumption. lia.
  - reflexivity.
  - unfold resetGame, initialPipes, Rnd.bind, Rnd.ret.
    rewrite !randomTopHeight_eq. simpl. lia.
  - unfold mount, initialPipes, Rnd.bind, Rnd.ret.
    rewrite !randomTopHeight_eq. reflexivity.
Qed.

(** X17.  A tick in which no pipe leaves the screen does not depend on
    the random source: it gives the same state whatever the draws are. *)
Theorem quiet_tick_is_deterministic (W H : Q) (rand rand' : nat -> Q)
    (s : state) (Hquiet : leaving (map movePipe (pipes s)) = []) :
  dispatch W H rand Timer s = dispatch W H rand' Timer s.
Proof.
  unfold dispatch. f_equal. unfold handle, tick.
  destruct (loopRef s) as [i |]; [| reflexivity].
  destruct (Qlt_le_dec H (ceiled s + BIRD_SIZE)) as [F | F].
  - rewrite !tickBody_floor by assumption. reflexivity.
  - rewrite !tickBody_pipes by assumption. cbv zeta.
    unfold advance. rewrite !recycle_quiet by exact Hquiet. reflexivity.
Qed.

Lemma quiet_tick_is_deterministic_witness :
  leaving (map movePipe (pipes Demo.started)) = []
  /\ dispatch Demo.W Demo.H Demo.rnd Timer Demo.started
     = dispatch Demo.W Demo.H Demo.half Timer Demo.started.
Proof.
  assert (Q : leaving (map movePipe (pipes Demo.started)) = [])
    by (vm_compute; reflexivity).
  exact (conj Q
    (quiet_tick_is_deterministic Demo.W Demo.H Demo.rnd Demo.half
       Demo.started Q)).
Defined.

(** X18.  With draws in [0, 1) and a screen of non-negative width, a pipe that
    has just been recycled starts at or beyond the right edge of the screen;
    it cannot be hit and cannot award a point in that tick, wherever the
    bird is. *)
Theorem recycled_pipe_is_out_of_play (W H : Q) (rand : nat -> Q) (p : pipe)
    (k : nat) (y : Q)
    (Hdraws : unitDraws rand) (Hwidth : 0 <= W)
    (Hleft : x p + PIPE_WIDTH < 0) :
  W + 60 <= x (fst (recyclePipe W H p rand k))
  /\ scored (fst (recyclePipe W H p rand k)) = false
  /\ hits W H y (fst (recyclePipe W H p rand k)) = false
  /\ passes W (fst (recyclePipe W H p rand k)) = false.
Proof.
  rewrite recyclePipe_out by assumption. simpl fst.
  destruct (Hdraws k) as [R0 R1].
  assert (X : W + 60 <= W + rand k * 120 + 60) by lra.
  split; [exact X |]. split; [reflexivity |]. split.
  - unfold hits. apply orb_false_iff.
    split; apply not_true_is_false; rewrite intersects_iff;
      unfold birdRect, topPipe, bottomPipe, BIRD_X, BIRD_SIZE; simpl;
      intros (A & _); lra.
  - apply not_true_is_false. rewrite passes_iff.
    unfold birdCenterX, BIRD_X, BIRD_SIZE, PIPE_WIDTH. simpl.
    intros [_ A]. setoid_replace (40 / 2) with 20 in A by reflexivity. lra.
Qed.

Lemma recycled_pipe_is_out_of_play_witness :
  unitDraws Demo.half /\ 0 <= Demo.W
  /\ x (mkPipe (-72) 100 true) + PIPE_WIDTH < 0
  /\ hits Demo.W Demo.H 300
       (fst (recyclePipe Demo.W Demo.H (mkPipe (-72) 100 true)
               Demo.half 0%nat)) = false.
Proof.
  assert (U : unitDraws Demo.half)
    by (intro n; split; [discriminate | reflexivity]).
  assert (P : 0 <= Demo.W) by discriminate.
  assert (L : x (mkPipe (-72) 100 true) + PIPE_WIDTH < 0) by reflexivity.
  exact (conj U (conj P (conj L (proj1 (proj2 (proj2
    (recycled_pipe_is_out_of_play Demo.W Demo.H Demo.half
       (mkPipe (-72) 100 true) 0%nat 300 U P L))))))).
Defined.
